(** * qcow2 header inspector: a shallow embedding of [qcow2.go]

    The program opens an image file, reads the fixed header, checks the
    magic, decodes the big-endian header fields, reads the extension area
    and walks the chain of header extensions.

    Modelling conventions.
    - Go's [int] is 64 bits wide here (the constant [HdrExtBackingFileFormat]
      = 0xE2792ACA of an [int]-based type does not compile otherwise), so
      [int(uint32)] is a [Z] in [0, 2^32) and index arithmetic cannot wrap.
    - A Go slice is a view (offset, length, capacity) into a backing array.
      The backing array of the current [buf] lives in the program state;
      slice expressions and indexing are bounds checked as the Go runtime
      does and panic when the check fails.
    - The image is a regular file: [Read] returns as many bytes as are left,
      up to the length of the destination, and [io.EOF] when none is left.
    - [os.Exit(1)] after a diagnostic and a runtime panic both end the
      program; they are distinct results of the model. *)

From Stdlib Require Import ZArith List Lia Bool.
From Stdlib Require Import Init.Byte Strings.Byte.
Import ListNotations.
Local Open Scope Z_scope.

(** ** Bytes and slices *)

Definition bytes := list byte.

(** Value of a byte as an unsigned integer ([uint32(b[i])], [uint64(b[i])]). *)
Definition u8 (b : byte) : Z := Z.of_N (Byte.to_N b).

(** A slice value: [off] is where the view starts in the backing array. *)
Record slice := mkSlice { off : Z; len : Z; cap : Z }.

(** The bytes a slice shows of the backing array [arr]. *)
Definition load (arr : bytes) (s : slice) : bytes :=
  firstn (Z.to_nat (len s)) (skipn (Z.to_nat (off s)) arr).

(** [sub arr lo hi] is the part [arr[lo:hi]] of a byte sequence. *)
Definition sub (arr : bytes) (lo hi : Z) : bytes :=
  firstn (Z.to_nat (hi - lo)) (skipn (Z.to_nat lo) arr).

(** Overwrite [arr] from position [at_] on with [data]. *)
Definition store (arr : bytes) (at_ : Z) (data : bytes) : bytes :=
  firstn (Z.to_nat at_) arr ++ data
    ++ skipn (Z.to_nat at_ + length data) arr.

(** ** Results of a run *)

Inductive io_error := EOF.

(** The three diagnostics after which [main] calls [os.Exit(1)]. *)
Inductive exit_reason :=
| ErrRead (e : io_error)   (* "[ERR] %q: %s" with the error of Read *)
| ErrShortRead             (* "[ERR] %q: short read" *)
| ErrBadMagic.             (* "[ERR] %q: Does not appear to be qcow file" *)

(** Go runtime errors. *)
Inductive runtime_error :=
| SliceBounds              (* slice bounds out of range *)
| IndexRange.              (* index out of range *)

Inductive outcome (A : Type) :=
| Ret (a : A)
| Exit (e : exit_reason)
| Panic (p : runtime_error)
| OutOfFuel.               (* the loop bound of the model was reached *)

Arguments Ret {A} a.
Arguments Exit {A} e.
Arguments Panic {A} p.
Arguments OutOfFuel {A}.

(** ** Program state and its monad *)

Record File := mkFile { contents : bytes; offset : Z }.

Record state := mkState { fh : File; mem : bytes }.

Definition M (A : Type) : Type := state -> outcome (A * state).

Definition ret {A} (a : A) : M A := fun st => Ret (a, st).

Definition bind {A B} (m : M A) (k : A -> M B) : M B :=
  fun st =>
    match m st with
    | Ret (a, st') => k a st'
    | Exit e => Exit e
    | Panic p => Panic p
    | OutOfFuel => OutOfFuel
    end.

Definition os_Exit {A} (e : exit_reason) : M A := fun _ => Exit e.
Definition panic {A} (p : runtime_error) : M A := fun _ => Panic p.
Definition get_mem : M bytes := fun st => Ret (mem st, st).

Declare Scope go_scope.
Delimit Scope go_scope with go.
Notation "x <- m ;; k" := (bind m (fun x => k))
  (at level 61, m at next level, right associativity) : go_scope.
Notation "m ;;; k" := (bind m (fun _ => k))
  (at level 61, right associativity) : go_scope.
Local Open Scope go_scope.

(** ** Slice expressions, with the checks of the Go runtime *)

(** [s[lo:hi]]: needs [0 <= lo <= hi <= cap(s)]. *)
Definition reslice (s : slice) (lo hi : Z) : M slice :=
  if (0 <=? lo) && (lo <=? hi) && (hi <=? cap s)
  then ret (mkSlice (off s + lo) (hi - lo) (cap s - lo))
  else panic SliceBounds.

(** [s[:hi]] *)
Definition reslice_to (s : slice) (hi : Z) : M slice := reslice s 0 hi.

(** [s[lo:]]: the upper index is [len(s)]. *)
Definition reslice_from (s : slice) (lo : Z) : M slice := reslice s lo (len s).

(** [s[i]]: needs [0 <= i < len(s)]. *)
Definition index (s : slice) (i : Z) : M byte :=
  if (0 <=? i) && (i <? len s)
  then arr <- get_mem ;;
       match nth_error arr (Z.to_nat (off s + i)) with
       | Some b => ret b
       | None => panic IndexRange
       end
  else panic IndexRange.

(** [make([]byte, n)]: the new backing array replaces the one [buf] had;
    nothing refers to the old one once [buf] is reassigned. *)
Definition make (n : Z) : M slice :=
  fun st => Ret (mkSlice 0 n n, mkState (fh st) (repeat x00 (Z.to_nat n))).

(** ** encoding/binary and bytes *)

(** [binary.BigEndian.Uint32]: [_ = b[3]], then the four bytes combined. *)
Definition Uint32 (b : slice) : M Z :=
  index b 3 ;;;
  b3 <- index b 3 ;; b2 <- index b 2 ;; b1 <- index b 1 ;; b0 <- index b 0 ;;
  ret (Z.lor (u8 b3)
      (Z.lor (Z.shiftl (u8 b2) 8)
      (Z.lor (Z.shiftl (u8 b1) 16)
             (Z.shiftl (u8 b0) 24)))).

(** [binary.BigEndian.Uint64]: [_ = b[7]], then the eight bytes combined. *)
Definition Uint64 (b : slice) : M Z :=
  index b 7 ;;;
  b7 <- index b 7 ;; b6 <- index b 6 ;; b5 <- index b 5 ;; b4 <- index b 4 ;;
  b3 <- index b 3 ;; b2 <- index b 2 ;; b1 <- index b 1 ;; b0 <- index b 0 ;;
  ret (Z.lor (u8 b7)
      (Z.lor (Z.shiftl (u8 b6) 8)
      (Z.lor (Z.shiftl (u8 b5) 16)
      (Z.lor (Z.shiftl (u8 b4) 24)
      (Z.lor (Z.shiftl (u8 b3) 32)
      (Z.lor (Z.shiftl (u8 b2) 40)
      (Z.lor (Z.shiftl (u8 b1) 48)
             (Z.shiftl (u8 b0) 56)))))))).

(** [int64(x)] of a [uint64]: the same 64 bits read as two's complement. *)
Definition int64_of_uint64 (x : Z) : Z :=
  if x <? 2 ^ 63 then x else x - 2 ^ 64.

Definition be32 (b : slice) : M Z := Uint32 b.

Definition be64 (b : slice) : M Z :=
  x <- Uint64 b ;; ret (int64_of_uint64 x).

(** [bytes.Compare]: lexicographic, -1, 0 or 1. *)
Fixpoint bytes_Compare (a b : bytes) : Z :=
  match a, b with
  | [], [] => 0
  | [], _ :: _ => -1
  | _ :: _, [] => 1
  | x :: a', y :: b' =>
      if u8 x <? u8 y then -1
      else if u8 y <? u8 x then 1
      else bytes_Compare a' b'
  end.

(** ** os.File *)

Definition os_Open (image : bytes) : File := mkFile image 0.

(** [fh.Read(b)]: the number of bytes read and the error. *)
Definition Read (b : slice) : M (Z * option io_error) :=
  fun st =>
    let f := fh st in
    if len b =? 0 then Ret ((0, None), st)
    else
      match skipn (Z.to_nat (offset f)) (contents f) with
      | [] => Ret ((0, Some EOF), st)
      | rest =>
          let chunk := firstn (Z.to_nat (len b)) rest in
          let n := Z.of_nat (length chunk) in
          Ret ((n, None),
               mkState (mkFile (contents f) (offset f + n))
                       (store (mem st) (off b) chunk))
      end.

(** ** Constants and types of the program *)

Definition Qcow2Magic : bytes := [x51; x46; x49; xfb].
Definition Qcow2V2HeaderSize : Z := 72.
Definition Qcow2V3HeaderSize : Z := 104 - Qcow2V2HeaderSize.

Definition HdrExtEndOfArea : Z := 0x00000000.
Definition HdrExtBackingFileFormat : Z := 0xE2792ACA.
Definition HdrExtFeatureNameTable : Z := 0x6803f857.

Module ExtHeader.
Record t := mk { Type' : Z; Size : Z; Data : slice }.
End ExtHeader.

Module Header.
Record t := mk {
  Version : Z;
  BackingFileOffset : Z;
  BackingFileSize : Z;
  ClusterBits : Z;
  Size : Z;
  CryptMethod : Z;
  L1Size : Z;
  L1TableOffset : Z;
  RefcountTableOffset : Z;
  RefcountTableClusters : Z;
  NbSnapshots : Z;
  SnapshotsOffset : Z;
  IncompatibleFeatures : Z;
  CompatibleFeatures : Z;
  AutoclearFeatures : Z;
  RefcountOrder : Z;
  HeaderLength : Z;
  ExtHeaders : list ExtHeader.t
}.

(** The five assignments of the [Version == 3] branch. *)
Definition set_v3 (q : t) (inc com aut ord hl : Z) : t :=
  mk (Version q) (BackingFileOffset q) (BackingFileSize q) (ClusterBits q)
     (Size q) (CryptMethod q) (L1Size q) (L1TableOffset q)
     (RefcountTableOffset q) (RefcountTableClusters q) (NbSnapshots q)
     (SnapshotsOffset q) inc com aut ord hl (ExtHeaders q).

Definition set_ExtHeaders (q : t) (l : list ExtHeader.t) : t :=
  mk (Version q) (BackingFileOffset q) (BackingFileSize q) (ClusterBits q)
     (Size q) (CryptMethod q) (L1Size q) (L1TableOffset q)
     (RefcountTableOffset q) (RefcountTableClusters q) (NbSnapshots q)
     (SnapshotsOffset q) (IncompatibleFeatures q) (CompatibleFeatures q)
     (AutoclearFeatures q) (RefcountOrder q) (HeaderLength q) l.
End Header.

(** [CryptMethod.String] *)
Definition CryptMethod_String (qcm : Z) : list byte :=
  if qcm =? 1 then [x41; x45; x53]              (* AES *)
  else [x6e; x6f; x6e; x65].       (* none *)

(** ** The body of [main] for one image *)

(** One checked read: [size, err := fh.Read(b)], the two tests after it. *)
Definition read_full (b : slice) (want : Z) : M unit :=
  r <- Read b ;;
  match snd r with
  | Some e => os_Exit (ErrRead e)
  | None => if fst r <? want then os_Exit ErrShortRead else ret tt
  end.

(** Lines 54-70: the v3 fields, read over the first 32 bytes of [buf]. *)
Definition decode_v3 (buf : slice) (q : Header.t) : M Header.t :=
  if Header.Version q =? 3 then
    s <- reslice_to buf Qcow2V3HeaderSize ;;
    read_full s Qcow2V3HeaderSize ;;;
    s <- reslice buf 0 8 ;;   inc <- be32 s ;;
    s <- reslice buf 8 16 ;;  com <- be32 s ;;
    s <- reslice buf 16 24 ;; aut <- be32 s ;;
    s <- reslice buf 24 28 ;; ord <- be32 s ;;
    s <- reslice buf 28 32 ;; hl <- be32 s ;;
    ret (Header.set_v3 q inc com aut ord hl)
  else ret q.

(** Lines 22-70: the fixed header, from the first read to the v3 fields. *)
Definition decodeHeader : M Header.t :=
  buf <- make Qcow2V2HeaderSize ;;
  read_full buf Qcow2V2HeaderSize ;;;
  magic <- reslice_to buf 4 ;;
  arr <- get_mem ;;
  if negb (bytes_Compare (load arr magic) Qcow2Magic =? 0)
  then os_Exit ErrBadMagic
  else
    s <- reslice buf 4 8 ;;   Version <- be32 s ;;
    s <- reslice buf 8 16 ;;  BackingFileOffset <- be64 s ;;
    s <- reslice buf 16 20 ;; BackingFileSize <- be32 s ;;
    s <- reslice buf 20 24 ;; ClusterBits <- be32 s ;;
    s <- reslice buf 24 32 ;; Size <- be64 s ;;
    s <- reslice buf 32 36 ;; CryptMethod <- be32 s ;;
    s <- reslice buf 36 40 ;; L1Size <- be32 s ;;
    s <- reslice buf 40 48 ;; L1TableOffset <- be64 s ;;
    s <- reslice buf 48 56 ;; RefcountTableOffset <- be64 s ;;
    s <- reslice buf 56 60 ;; RefcountTableClusters <- be32 s ;;
    s <- reslice buf 60 64 ;; NbSnapshots <- be32 s ;;
    s <- reslice buf 64 72 ;; SnapshotsOffset <- be64 s ;;
    let q := Header.mk Version BackingFileOffset BackingFileSize ClusterBits
               Size CryptMethod L1Size L1TableOffset RefcountTableOffset
               RefcountTableClusters NbSnapshots SnapshotsOffset
               0 0 0 0 72 [] in
    decode_v3 buf q.

(** Lines 76-85: the buffer of the extension area. *)
Definition readExtArea (q : Header.t) : M slice :=
  buf <- make (Header.HeaderLength q) ;;
  read_full buf (Header.HeaderLength q) ;;;
  ret buf.

(** One turn of the loop of lines 86-101. *)
Inductive turn :=
| Break
| Continue (exthdr : ExtHeader.t) (buf' : slice).

Definition walk_turn (buf : slice) : M turn :=
  s <- reslice_to buf 4 ;;
  t <- be32 s ;;
  if t =? HdrExtEndOfArea then ret Break
  else
    s <- reslice buf 4 8 ;;
    Size <- be32 s ;;
    Data <- reslice buf 8 (8 + Size) ;;
    let exthdr := ExtHeader.mk t Size Data in
    let round := Z.rem (ExtHeader.Size exthdr) 8 in
    buf' <- reslice_from buf (8 + ExtHeader.Size exthdr + round) ;;
    ret (Continue exthdr buf').

(** The loop; [exts] is [q.ExtHeaders], grown by [append]. *)
Fixpoint walk_loop (fuel : nat) (buf : slice) (exts : list ExtHeader.t)
  : M (list ExtHeader.t) :=
  match fuel with
  | O => fun _ => OutOfFuel
  | S fuel' =>
      r <- walk_turn buf ;;
      match r with
      | Break => ret exts
      | Continue exthdr buf' => walk_loop fuel' buf' (exts ++ [exthdr])
      end
  end.

(** Every turn that continues drops at least the 8 bytes of a record
    header from [buf], so [len buf] turns and one more are enough. *)
Definition walkExtensions (buf : slice) : M (list ExtHeader.t) :=
  walk_loop (S (Z.to_nat (len buf))) buf [].

(** The whole body of the loop over the arguments, for one image. *)
Definition inspect : M Header.t :=
  q <- decodeHeader ;;
  buf <- readExtArea q ;;
  exts <- walkExtensions buf ;;
  ret (Header.set_ExtHeaders q exts).

Definition initial (image : bytes) : state := mkState (os_Open image) [].

Definition run {A} (m : M A) (image : bytes) : outcome (A * state) :=
  m (initial image).

(** * Vocabulary of the properties *)

(** ** Integers and buffers *)

(** The unsigned integer a byte string spells, most significant byte first. *)
Definition big_endian (bs : bytes) : Z :=
  fold_left (fun acc b => acc * 256 + u8 b) bs 0.

(** [buf] as the program has it during the walk: a view inside its
    backing array whose capacity is its length ([make] gives [len = cap],
    and [buf[n:]] keeps it). *)
Definition wf_buf (st : state) (buf : slice) : Prop :=
  0 <= off buf /\ 0 <= len buf /\ cap buf = len buf
  /\ off buf + len buf <= Z.of_nat (length (mem st)).

(** The type tag and the declared size of the record at the cursor. *)
Definition tag_at (st : state) (buf : slice) : Z :=
  big_endian (sub (load (mem st) buf) 0 4).
Definition size_at (st : state) (buf : slice) : Z :=
  big_endian (sub (load (mem st) buf) 4 8).

(** What the walker adds to the cursor after a record of size [s]. *)
Definition stride (s : Z) : Z := 8 + s + Z.rem s 8.

(** The slice [buf[n:]]. *)
Definition advance (buf : slice) (n : Z) : slice :=
  mkSlice (off buf + n) (len buf - n) (cap buf - n).

(** A computation that leaves the program state as it found it. *)
Definition read_only {A} (m : M A) : Prop :=
  forall st a st', m st = Ret (a, st') -> st' = st.

(** ** Records of the extension area *)

(** The four parts of a record on disk. *)
Record record := mkRecord {
  r_tag : bytes;
  r_size : bytes;
  r_payload : bytes;
  r_padding : bytes
}.

Definition layout (r : record) : bytes :=
  r_tag r ++ r_size r ++ r_payload r ++ r_padding r.

(** A record the walker steps over: a nonzero type tag, a size field that
    gives the length of the payload, and as many trailing bytes as the
    walker skips, so that the record is [stride] bytes long. *)
Definition well_laid (r : record) : Prop :=
  length (r_tag r) = 4%nat /\ length (r_size r) = 4%nat
  /\ big_endian (r_tag r) <> 0
  /\ big_endian (r_size r) = Z.of_nat (length (r_payload r))
  /\ Z.of_nat (length (layout r)) = stride (big_endian (r_size r)).

(** The entry of [q.ExtHeaders] shows the record: same tag, same size,
    and [Data] views exactly the payload bytes. *)
Definition shows (st : state) (r : record) (e : ExtHeader.t) : Prop :=
  ExtHeader.Type' e = big_endian (r_tag r)
  /\ ExtHeader.Size e = big_endian (r_size r)
  /\ load (mem st) (ExtHeader.Data e) = r_payload r.

(** The record at the cursor of a turn that continues. *)
Definition record_at (st : state) (buf : slice) : record :=
  let l := load (mem st) buf in
  let s := size_at st buf in
  mkRecord (sub l 0 4) (sub l 4 8) (sub l 8 (8 + s)) (sub l (8 + s) (stride s)).

(** The type tag at the head of a byte string. *)
Definition tag_of (bs : bytes) : Z := big_endian (sub bs 0 4).

(** The declared size of the record at the head of a byte string. *)
Definition size_of (bs : bytes) : Z := big_endian (sub bs 4 8).

(** [e] was read from a record that starts at [pos], not before [lo]:
    its size is the integer at [pos+4, pos+8) and its [Data] is the view of
    the [Size] bytes after the 8 bytes of the record header, all of them
    inside the backing array. *)
Definition read_at (st : state) (lo : Z) (e : ExtHeader.t) (pos : Z) : Prop :=
  lo <= pos
  /\ pos + 8 + ExtHeader.Size e <= Z.of_nat (length (mem st))
  /\ ExtHeader.Type' e = big_endian (sub (mem st) pos (pos + 4))
  /\ ExtHeader.Size e = big_endian (sub (mem st) (pos + 4) (pos + 8))
  /\ off (ExtHeader.Data e) = pos + 8
  /\ len (ExtHeader.Data e) = ExtHeader.Size e
  /\ load (mem st) (ExtHeader.Data e)
     = sub (mem st) (pos + 8) (pos + 8 + ExtHeader.Size e)
  /\ Z.of_nat (length (load (mem st) (ExtHeader.Data e))) = ExtHeader.Size e.

Definition read_from (st : state) (lo : Z) (e : ExtHeader.t) : Prop :=
  exists pos, read_at st lo e pos.

(** ** Headers and states of a run *)

(** Bytes left in the file at its offset. *)
Definition left_in (f : File) : Z := Z.of_nat (length (contents f)) - offset f.

(** The header the first 72 bytes spell, by the layout of the format:
    the fields at their offsets, big-endian, the v3 fields left zero and
    the header length 72. *)
Definition fixed_fields (image : bytes) : Header.t :=
  Header.mk
    (big_endian (sub image 4 8))
    (int64_of_uint64 (big_endian (sub image 8 16)))
    (big_endian (sub image 16 20))
    (big_endian (sub image 20 24))
    (int64_of_uint64 (big_endian (sub image 24 32)))
    (big_endian (sub image 32 36))
    (big_endian (sub image 36 40))
    (int64_of_uint64 (big_endian (sub image 40 48)))
    (int64_of_uint64 (big_endian (sub image 48 56)))
    (big_endian (sub image 56 60))
    (big_endian (sub image 60 64))
    (int64_of_uint64 (big_endian (sub image 64 72)))
    0 0 0 0 72 [].

(** The version field of an image. *)
Definition version_of (image : bytes) : Z := big_endian (sub image 4 8).

(** The state after the first 72 bytes are read. *)
Definition after_v2 (image : bytes) : state :=
  mkState (mkFile image 72) (sub image 0 72).

(** The state after the 32 bytes of the v3 fields are read: they lie over
    the first 32 bytes of the array of [buf]. *)
Definition after_v3 (image : bytes) : state :=
  mkState (mkFile image 104) (sub image 72 104 ++ skipn 32 (sub image 0 72)).

(** The state once [n] bytes after position [at_] are read into a new
    array. *)
Definition after_ext (image : bytes) (at_ n : Z) : state :=
  mkState (mkFile image (at_ + n)) (sub image at_ (at_ + n)).

(** The five v3 fields as [decodeHeader] reads them: each through [be32],
    which takes the first four bytes of the slice it is given. *)
Definition v3_fields (image : bytes) : Header.t :=
  Header.set_v3 (fixed_fields image)
    (big_endian (sub image 72 76))
    (big_endian (sub image 80 84))
    (big_endian (sub image 88 92))
    (big_endian (sub image 96 100))
    (big_endian (sub image 100 104)).

(** Where the fixed fields of a decoded header end in the file. *)
Definition fixed_size (q : Header.t) : Z :=
  if Header.Version q =? 3 then 104 else 72.

(** ** Sample images *)

Definition zeros (n : nat) : bytes := repeat x00 n.

(** A version 2 header: magic, version, 64 zero bytes. *)
Definition header_v2 : bytes := Qcow2Magic ++ [x00; x00; x00; x02] ++ zeros 64.

(** The same with version 4 in the version field. *)
Definition header_v4 : bytes := Qcow2Magic ++ [x00; x00; x00; x04] ++ zeros 64.

(** 72 bytes that do not start with the magic. *)
Definition header_no_magic : bytes := [x51; x46; x49; x00] ++ zeros 68.

(** A version 3 header with only the dirty bit (bit 0) set in the
    incompatible features, refcount order 4 and header length 104. *)
Definition header_v3_dirty : bytes :=
  Qcow2Magic ++ [x00; x00; x00; x03] ++ zeros 64
    ++ [x00; x00; x00; x00; x00; x00; x00; x01]
    ++ zeros 8 ++ zeros 8
    ++ [x00; x00; x00; x04] ++ [x00; x00; x00; x68].

(** A backing-format record of size 4, a record with a tag the program
    has no name for, and the end of the area. *)
Definition rec_format : record :=
  mkRecord [xe2; x79; x2a; xca] [x00; x00; x00; x04]
           [x71; x63; x6f; x77] (zeros 4).
Definition rec_other : record :=
  mkRecord [x12; x34; x56; x78] [x00; x00; x00; x00] [] [].
Definition area_two_records : bytes :=
  layout rec_format ++ layout rec_other ++ zeros 48.

(** An area with a record of size 5, padded to 16 bytes as the format
    asks, a feature-name-table record of size 0 and the end of the area. *)
Definition area_size_5 : bytes :=
  [xe2; x79; x2a; xca] ++ [x00; x00; x00; x05]
    ++ [x71; x63; x6f; x77; x32] ++ zeros 3
    ++ [x68; x03; xf8; x57] ++ [x00; x00; x00; x00]
    ++ zeros 48.

(** A good record, then a record that declares 100 bytes of payload with
    48 bytes left after its header. *)
Definition cut_record : bytes :=
  [xe2; x79; x2a; xca] ++ [x00; x00; x00; x64] ++ zeros 48.
Definition area_cut : bytes := layout rec_format ++ cut_record.

(** Nine records of 8 bytes fill the 72 bytes; no end-of-area tag. *)
Definition nine_records : list record := repeat rec_other 9.
Definition area_no_end : bytes := flat_map layout nine_records.

(** Version 2 images with these areas after the header, and the program
    state when the walk of each begins. *)
Definition image_two_records : bytes := header_v2 ++ area_two_records.
Definition image_size_5 : bytes := header_v2 ++ area_size_5.
Definition image_cut : bytes := header_v2 ++ area_cut.
Definition image_no_end : bytes := header_v2 ++ area_no_end.

Definition walk_start (image : bytes) : state := after_ext image 72 72.

(** [buf] when the walk of a version 2 image begins. *)
Definition buf_v2 : slice := mkSlice 0 72 72.

(** ** More sample images *)

(** Sixty-four bytes that start with the magic: less than a v2 header. *)
Definition image_short : bytes := Qcow2Magic ++ [x00; x00; x00; x02] ++ zeros 56.

(** A version 3 header cut after 80 bytes. *)
Definition header_v3_cut : bytes :=
  Qcow2Magic ++ [x00; x00; x00; x03] ++ zeros 64 ++ zeros 8.

(** A version 3 header whose header-length field is 0. *)
Definition header_v3_no_area : bytes :=
  Qcow2Magic ++ [x00; x00; x00; x03] ++ zeros 64 ++ zeros 32.

(** A version 3 header whose header-length field is 4, and 4 zero bytes. *)
Definition image_v3_four : bytes :=
  Qcow2Magic ++ [x00; x00; x00; x03] ++ zeros 64
    ++ zeros 28 ++ [x00; x00; x00; x04] ++ zeros 4.

(** A version 2 header with AES in the crypt-method field, a virtual size
    with the top bit set and a nonzero L1 size. *)
Definition header_v2_aes : bytes :=
  Qcow2Magic ++ [x00; x00; x00; x02]
    ++ zeros 8 ++ zeros 4 ++ [x00; x00; x00; x10]
    ++ [xff; xff; xff; xff; xff; xff; xff; xfe]
    ++ [x00; x00; x00; x01] ++ [x00; x00; x00; x02]
    ++ zeros 8 ++ zeros 8 ++ zeros 4 ++ zeros 4 ++ zeros 8.

(** Seven records of 8 bytes, then a record of size 5 padded to 16 bytes
    that ends with the area. *)
Definition seven_records : list record := repeat rec_other 7.
Definition last_record : bytes :=
  [x12; x34; x56; x78] ++ [x00; x00; x00; x05]
    ++ [x71; x63; x6f; x77; x32] ++ zeros 3.
Definition area_no_room : bytes := flat_map layout seven_records ++ last_record.
Definition image_no_room : bytes := header_v2 ++ area_no_room.

(** ** The format's stride and the order of the entries *)

(** The stride the format asks for: the payload padded to a multiple of 8. *)
Definition aligned_stride (s : Z) : Z :=
  8 + s + (if s mod 8 =? 0 then 0 else 8 - s mod 8).

(** The entries as the loop leaves them when it starts at [pos]: each
    [Data] begins 8 bytes after the cursor and is [Size] bytes long, and
    the cursor of the next entry is [stride] further. *)
Fixpoint laid_from (pos : Z) (es : list ExtHeader.t) : Prop :=
  match es with
  | [] => True
  | e :: es' =>
      off (ExtHeader.Data e) = pos + 8
      /\ len (ExtHeader.Data e) = ExtHeader.Size e
      /\ 0 <= ExtHeader.Size e
      /\ laid_from (pos + stride (ExtHeader.Size e)) es'
  end.

(** [e1] lies before [e2]: the payload of [e1] ends before the record
    header of [e2] begins. *)
Definition lies_before (e1 e2 : ExtHeader.t) : Prop :=
  off (ExtHeader.Data e1) + ExtHeader.Size e1 + 8 <= off (ExtHeader.Data e2).

(** ** Sample slices *)

(** The state at the start of the walk of [image_two_records], and views
    of 8, 4 and 3 bytes of its buffer. *)
Definition st_sample : state := walk_start image_two_records.
Definition slice_8 : slice := mkSlice 0 8 72.
Definition slice_4 : slice := mkSlice 4 4 68.
Definition slice_3 : slice := mkSlice 0 3 72.

(** A state whose array is eight bytes FF, and the view of all of it. *)
Definition st_ones : state :=
  mkState (mkFile [] 0) (repeat xff 8).
Definition slice_ones : slice := mkSlice 0 8 8.

(** The sum of the strides of the entries of a list. *)
Definition strides (es : list ExtHeader.t) : Z :=
  fold_right (fun e acc => stride (ExtHeader.Size e) + acc) 0 es.

(** * Properties *)

(** ** Big-endian integers *)

Lemma u8_range (b : byte) : 0 <= u8 b < 256.
Proof.
  unfold u8. pose proof (Byte.to_N_bounded b) as Hb. lia.
Qed.

Lemma land_shiftl_small (a b n : Z) :
  0 <= n -> 0 <= a < 2 ^ n -> Z.land a (Z.shiftl b n) = 0.
Proof.
  intros Hn Ha. apply Z.bits_inj'. intros m Hm.
  rewrite Z.land_spec, Z.bits_0.
  destruct (Z.lt_ge_cases m n) as [Hlt | Hge].
  - rewrite (Z.shiftl_spec_low b n m Hlt). apply andb_false_r.
  - replace a with (a mod 2 ^ n) by (apply Z.mod_small; exact Ha).
    rewrite Z.mod_pow2_bits_high by lia. reflexivity.
Qed.

Lemma lor_shiftl_add (a b n : Z) :
  0 <= n -> 0 <= a < 2 ^ n -> Z.lor a (Z.shiftl b n) = a + b * 2 ^ n.
Proof.
  intros Hn Ha.
  pose proof (Z.add_lor_land a (Z.shiftl b n)) as H.
  rewrite (land_shiftl_small a b n Hn Ha), Z.add_0_r in H.
  rewrite H, Z.shiftl_mul_pow2 by exact Hn. reflexivity.
Qed.

Lemma lor_shiftl_byte (b : byte) (hi : Z) :
  Z.lor (u8 b) (Z.shiftl hi 8) = hi * 256 + u8 b.
Proof.
  pose proof (u8_range b).
  rewrite lor_shiftl_add by (change (2 ^ 8) with 256; lia).
  change (2 ^ 8) with 256. lia.
Qed.

Lemma Uint32_value (b0 b1 b2 b3 : byte) :
  Z.lor (u8 b3) (Z.lor (Z.shiftl (u8 b2) 8)
    (Z.lor (Z.shiftl (u8 b1) 16) (Z.shiftl (u8 b0) 24)))
  = big_endian [b0; b1; b2; b3].
Proof.
  unfold big_endian; simpl fold_left.
  replace (Z.shiftl (u8 b0) 24) with (Z.shiftl (Z.shiftl (u8 b0) 8) 16)
    by (rewrite Z.shiftl_shiftl by lia; reflexivity).
  rewrite <- Z.shiftl_lor, lor_shiftl_byte.
  replace (Z.shiftl (u8 b0 * 256 + u8 b1) 16)
    with (Z.shiftl (Z.shiftl (u8 b0 * 256 + u8 b1) 8) 8)
    by (rewrite Z.shiftl_shiftl by lia; reflexivity).
  rewrite <- Z.shiftl_lor, lor_shiftl_byte, lor_shiftl_byte.
  reflexivity.
Qed.

Lemma big_endian_range4 (b0 b1 b2 b3 : byte) :
  0 <= big_endian [b0; b1; b2; b3] < 2 ^ 32.
Proof.
  pose proof (u8_range b0). pose proof (u8_range b1).
  pose proof (u8_range b2). pose proof (u8_range b3).
  unfold big_endian; simpl fold_left. lia.
Qed.

Lemma Uint64_value (b0 b1 b2 b3 b4 b5 b6 b7 : byte) :
  Z.lor (u8 b7) (Z.lor (Z.shiftl (u8 b6) 8) (Z.lor (Z.shiftl (u8 b5) 16)
    (Z.lor (Z.shiftl (u8 b4) 24) (Z.lor (Z.shiftl (u8 b3) 32)
    (Z.lor (Z.shiftl (u8 b2) 40) (Z.lor (Z.shiftl (u8 b1) 48)
      (Z.shiftl (u8 b0) 56)))))))
  = big_endian [b0; b1; b2; b3; b4; b5; b6; b7].
Proof.
  unfold big_endian; simpl fold_left.
  repeat match goal with
  | |- context [Z.lor (Z.shiftl ?x ?n) (Z.shiftl ?y ?m)] =>
      replace (Z.shiftl y m) with (Z.shiftl (Z.shiftl y 8) n)
        by (rewrite Z.shiftl_shiftl by lia; reflexivity);
      rewrite <- (Z.shiftl_lor x (Z.shiftl y 8) n), lor_shiftl_byte
  end.
  rewrite lor_shiftl_byte. reflexivity.
Qed.

(** ** Lists of bytes *)

Lemma sub_length (arr : bytes) (lo hi : Z) :
  0 <= lo <= hi -> hi <= Z.of_nat (length arr) ->
  Z.of_nat (length (sub arr lo hi)) = hi - lo.
Proof.
  intros H1 H2. unfold sub. rewrite length_firstn, length_skipn. lia.
Qed.

Lemma sub_cons (arr : bytes) (lo hi : Z) :
  0 <= lo < hi -> lo < Z.of_nat (length arr) ->
  exists b, nth_error arr (Z.to_nat lo) = Some b
            /\ sub arr lo hi = b :: sub arr (lo + 1) hi.
Proof.
  intros H1 H2.
  destruct (nth_error arr (Z.to_nat lo)) as [b|] eqn:E.
  - exists b. split; [reflexivity|].
    unfold sub.
    apply nth_error_split in E. destruct E as (l1 & l2 & -> & Hl).
    assert (E1 : skipn (Z.to_nat lo) (l1 ++ b :: l2) = b :: l2).
    { rewrite <- Hl, skipn_app, skipn_all, Nat.sub_diag. reflexivity. }
    assert (E2 : skipn (Z.to_nat (lo + 1)) (l1 ++ b :: l2) = l2).
    { replace (Z.to_nat (lo + 1)) with (length (l1 ++ [b]))
        by (rewrite length_app; simpl; lia).
      replace (l1 ++ b :: l2) with ((l1 ++ [b]) ++ l2)
        by (rewrite <- app_assoc; reflexivity).
      rewrite skipn_app, skipn_all, Nat.sub_diag. reflexivity. }
    rewrite E1, E2.
    replace (Z.to_nat (hi - lo)) with (S (Z.to_nat (hi - (lo + 1)))) by lia.
    reflexivity.
  - apply nth_error_None in E. lia.
Qed.

Lemma sub_4 (arr : bytes) (lo : Z) :
  0 <= lo -> lo + 4 <= Z.of_nat (length arr) ->
  exists b0 b1 b2 b3,
    nth_error arr (Z.to_nat lo) = Some b0
    /\ nth_error arr (Z.to_nat (lo + 1)) = Some b1
    /\ nth_error arr (Z.to_nat (lo + 2)) = Some b2
    /\ nth_error arr (Z.to_nat (lo + 3)) = Some b3
    /\ sub arr lo (lo + 4) = [b0; b1; b2; b3].
Proof.
  intros H1 H2.
  destruct (sub_cons arr lo (lo + 4)) as (b0 & E0 & S0); try lia.
  destruct (sub_cons arr (lo + 1) (lo + 4)) as (b1 & E1 & S1); try lia.
  destruct (sub_cons arr (lo + 1 + 1) (lo + 4)) as (b2 & E2 & S2); try lia.
  destruct (sub_cons arr (lo + 1 + 1 + 1) (lo + 4)) as (b3 & E3 & S3); try lia.
  exists b0, b1, b2, b3.
  replace (lo + 1 + 1) with (lo + 2) in * by lia.
  replace (lo + 2 + 1) with (lo + 3) in * by lia.
  repeat split; try assumption.
  rewrite S0, S1, S2, S3. unfold sub.
  replace (Z.to_nat (lo + 4 - (lo + 3 + 1))) with O by lia. reflexivity.
Qed.

(** ** Reads through a slice *)

Lemma index_ok (s : slice) (i : Z) (st : state) (b : byte) :
  0 <= i < len s ->
  nth_error (mem st) (Z.to_nat (off s + i)) = Some b ->
  index s i st = Ret (b, st).
Proof.
  intros Hi Hn. unfold index.
  replace ((0 <=? i) && (i <? len s)) with true
    by (symmetry; apply andb_true_iff; split; [apply Z.leb_le | apply Z.ltb_lt]; lia).
  unfold bind, get_mem. rewrite Hn. reflexivity.
Qed.

(** A byte that [s[i]] returns lies inside the slice and the array, and
    the state is left as it was: nothing outside the buffer is read. *)
Lemma index_in_bounds (s : slice) (i : Z) (st st' : state) (b : byte) :
  index s i st = Ret (b, st') ->
  0 <= i < len s
  /\ nth_error (mem st) (Z.to_nat (off s + i)) = Some b
  /\ st' = st.
Proof.
  unfold index. intros H.
  destruct ((0 <=? i) && (i <? len s)) eqn:E; [|discriminate H].
  apply andb_true_iff in E. destruct E as (E1 & E2).
  apply Z.leb_le in E1. apply Z.ltb_lt in E2.
  unfold bind, get_mem in H.
  destruct (nth_error (mem st) (Z.to_nat (off s + i))) as [x|];
    [|discriminate H].
  inversion H; subst. repeat split; lia.
Qed.

Lemma bind_eq {A B} (m : M A) (k : A -> M B) (st st' : state) (a : A) :
  m st = Ret (a, st') -> bind m k st = k a st'.
Proof. intros H. unfold bind. rewrite H. reflexivity. Qed.

Lemma bind_panic {A B} (m : M A) (k : A -> M B) (st : state) p :
  m st = Panic p -> bind m k st = Panic p.
Proof. intros H. unfold bind. rewrite H. reflexivity. Qed.

Lemma bind_exit {A B} (m : M A) (k : A -> M B) (st : state) e :
  m st = Exit e -> bind m k st = Exit e.
Proof. intros H. unfold bind. rewrite H. reflexivity. Qed.

Lemma be32_at (s : slice) (st : state) :
  0 <= off s -> 4 <= len s -> off s + 4 <= Z.of_nat (length (mem st)) ->
  be32 s st = Ret (big_endian (sub (mem st) (off s) (off s + 4)), st).
Proof.
  intros H0 H1 H2.
  destruct (sub_4 (mem st) (off s) H0 H2)
    as (b0 & b1 & b2 & b3 & E0 & E1 & E2 & E3 & ->).
  rewrite <- (Z.add_0_r (off s)) in E0.
  assert (I3 := index_ok s 3 st b3 ltac:(lia) E3).
  assert (I2 := index_ok s 2 st b2 ltac:(lia) E2).
  assert (I1 := index_ok s 1 st b1 ltac:(lia) E1).
  assert (I0 := index_ok s 0 st b0 ltac:(lia) E0).
  unfold be32, Uint32.
  rewrite (bind_eq _ _ _ _ _ I3), (bind_eq _ _ _ _ _ I3),
    (bind_eq _ _ _ _ _ I2), (bind_eq _ _ _ _ _ I1), (bind_eq _ _ _ _ _ I0).
  unfold ret. rewrite Uint32_value. reflexivity.
Qed.

Lemma be32_short (s : slice) (st : state) :
  len s < 4 -> be32 s st = Panic IndexRange.
Proof.
  intros H. unfold be32, Uint32. apply bind_panic. unfold index.
  replace (3 <? len s) with false by (symmetry; apply Z.ltb_ge; lia).
  reflexivity.
Qed.

Lemma sub_sub (arr : bytes) (lo hi a b : Z) :
  0 <= lo -> 0 <= a <= b -> b <= hi - lo ->
  sub (sub arr lo hi) a b = sub arr (lo + a) (lo + b).
Proof.
  intros H0 H1 H2. unfold sub.
  rewrite skipn_firstn_comm, firstn_firstn, skipn_skipn.
  f_equal; [|f_equal]; lia.
Qed.

Lemma load_sub (arr : bytes) (s : slice) :
  load arr s = sub arr (off s) (off s + len s).
Proof.
  unfold load, sub. do 2 f_equal. lia.
Qed.

Lemma sub_load (arr : bytes) (s : slice) (a b : Z) :
  0 <= off s -> 0 <= a <= b -> b <= len s ->
  sub arr (off s + a) (off s + b) = sub (load arr s) a b.
Proof.
  intros H0 H1 H2. rewrite load_sub, sub_sub by lia. reflexivity.
Qed.

Lemma sub_app_l (l1 l2 : bytes) (n : Z) :
  n = Z.of_nat (length l1) -> sub (l1 ++ l2) 0 n = l1.
Proof.
  intros ->. unfold sub. simpl skipn.
  rewrite Z.sub_0_r, Nat2Z.id, firstn_app, Nat.sub_diag, firstn_all.
  simpl. apply app_nil_r.
Qed.

Lemma sub_app_r (l1 l2 : bytes) (a b : Z) :
  0 <= a <= b ->
  sub (l1 ++ l2) (Z.of_nat (length l1) + a) (Z.of_nat (length l1) + b)
  = sub l2 a b.
Proof.
  intros H. unfold sub.
  replace (Z.to_nat (Z.of_nat (length l1) + a))
    with (Z.to_nat a + length l1)%nat by lia.
  rewrite <- skipn_skipn, skipn_app, skipn_all, Nat.sub_diag.
  simpl. f_equal. lia.
Qed.

(** ** Slice expressions *)

Lemma reslice_ok (s : slice) (lo hi : Z) (st : state) :
  0 <= lo <= hi -> hi <= cap s ->
  reslice s lo hi st = Ret (mkSlice (off s + lo) (hi - lo) (cap s - lo), st).
Proof.
  intros H1 H2. unfold reslice.
  replace ((0 <=? lo) && (lo <=? hi) && (hi <=? cap s)) with true; [reflexivity|].
  symmetry. rewrite !andb_true_iff, !Z.leb_le. lia.
Qed.

Lemma reslice_out (s : slice) (lo hi : Z) (st : state) :
  lo < 0 \/ hi < lo \/ cap s < hi ->
  reslice s lo hi st = Panic SliceBounds.
Proof.
  intros H. unfold reslice.
  replace ((0 <=? lo) && (lo <=? hi) && (hi <=? cap s)) with false; [reflexivity|].
  symmetry. rewrite !andb_false_iff, !Z.leb_gt. lia.
Qed.

(** ** The walk of the extension area *)

Lemma big_endian_sub4_range (arr : bytes) (lo : Z) :
  0 <= big_endian (sub arr lo (lo + 4)) < 2 ^ 32.
Proof.
  unfold sub. replace (Z.to_nat (lo + 4 - lo)) with 4%nat by lia.
  destruct (skipn (Z.to_nat lo) arr) as [|b0 [|b1 [|b2 [|b3 l]]]];
    simpl firstn; try apply big_endian_range4;
    try pose proof (u8_range b0); try pose proof (u8_range b1);
    try pose proof (u8_range b2);
    unfold big_endian; simpl fold_left; lia.
Qed.

Lemma size_at_range (st : state) (buf : slice) :
  0 <= size_at st buf < 2 ^ 32.
Proof. apply (big_endian_sub4_range _ 4). Qed.

Lemma stride_bounds (s : Z) : 0 <= s -> 8 + s <= stride s < 8 + s + 8.
Proof.
  intros H. unfold stride.
  pose proof (Z.rem_bound_pos s 8 H ltac:(lia)). lia.
Qed.

Lemma be32_tag (st : state) (buf : slice) :
  wf_buf st buf -> 4 <= len buf ->
  be32 (mkSlice (off buf + 0) (4 - 0) (cap buf - 0)) st
  = Ret (tag_at st buf, st).
Proof.
  intros (H0 & H1 & H2 & H3) H4.
  rewrite be32_at by (simpl; lia). simpl off.
  unfold tag_at. rewrite <- sub_load by lia.
  replace (off buf + 0 + 4) with (off buf + 4) by lia. reflexivity.
Qed.

Lemma be32_size (st : state) (buf : slice) :
  wf_buf st buf -> 8 <= len buf ->
  be32 (mkSlice (off buf + 4) (8 - 4) (cap buf - 4)) st
  = Ret (size_at st buf, st).
Proof.
  intros (H0 & H1 & H2 & H3) H4.
  rewrite be32_at by (simpl; lia). simpl off.
  unfold size_at. rewrite <- sub_load by lia.
  replace (off buf + 4 + 4) with (off buf + 8) by lia. reflexivity.
Qed.

Lemma walk_turn_short4 (st : state) (buf : slice) :
  wf_buf st buf -> len buf < 4 -> walk_turn buf st = Panic SliceBounds.
Proof.
  intros (H0 & H1 & H2 & H3) H4. unfold walk_turn, reslice_to.
  apply bind_panic, reslice_out. lia.
Qed.

(** The turn once the type tag is read. *)
Lemma walk_turn_head (st : state) (buf : slice) :
  wf_buf st buf -> 4 <= len buf ->
  walk_turn buf st =
  (if tag_at st buf =? HdrExtEndOfArea then ret Break
   else
     s <- reslice buf 4 8 ;;
     Size <- be32 s ;;
     Data <- reslice buf 8 (8 + Size) ;;
     let exthdr := ExtHeader.mk (tag_at st buf) Size Data in
     let round := Z.rem (ExtHeader.Size exthdr) 8 in
     buf' <- reslice_from buf (8 + ExtHeader.Size exthdr + round) ;;
     ret (Continue exthdr buf')) st.
Proof.
  intros Hwf H4. pose proof (be32_tag st buf Hwf H4) as E.
  destruct Hwf as (H0 & H1 & H2 & H3).
  unfold walk_turn, reslice_to.
  rewrite (bind_eq _ _ _ _ _ (reslice_ok buf 0 4 st ltac:(lia) ltac:(lia))).
  rewrite (bind_eq _ _ _ _ _ E). reflexivity.
Qed.

Lemma walk_turn_break (st : state) (buf : slice) :
  wf_buf st buf -> 4 <= len buf -> tag_at st buf = 0 ->
  walk_turn buf st = Ret (Break, st).
Proof.
  intros Hwf H4 Ht. rewrite walk_turn_head, Ht by assumption. reflexivity.
Qed.

Lemma walk_turn_short8 (st : state) (buf : slice) :
  wf_buf st buf -> 4 <= len buf < 8 -> tag_at st buf <> 0 ->
  walk_turn buf st = Panic SliceBounds.
Proof.
  intros Hwf H4 Ht. rewrite walk_turn_head by (assumption || lia).
  destruct Hwf as (H0 & H1 & H2 & H3).
  apply Z.eqb_neq in Ht. unfold HdrExtEndOfArea. rewrite Ht.
  apply bind_panic, reslice_out. lia.
Qed.

(** The turn once type tag and size are read. *)
Lemma walk_turn_body (st : state) (buf : slice) :
  wf_buf st buf -> 8 <= len buf -> tag_at st buf <> 0 ->
  walk_turn buf st =
  (Data <- reslice buf 8 (8 + size_at st buf) ;;
   buf' <- reslice_from buf (stride (size_at st buf)) ;;
   ret (Continue (ExtHeader.mk (tag_at st buf) (size_at st buf) Data) buf')) st.
Proof.
  intros Hwf H8 Ht. rewrite walk_turn_head by (assumption || lia).
  pose proof (be32_size st buf Hwf H8) as E.
  destruct Hwf as (H0 & H1 & H2 & H3).
  apply Z.eqb_neq in Ht. unfold HdrExtEndOfArea. rewrite Ht.
  rewrite (bind_eq _ _ _ _ _ (reslice_ok buf 4 8 st ltac:(lia) ltac:(lia))).
  rewrite (bind_eq _ _ _ _ _ E). reflexivity.
Qed.

Lemma walk_turn_truncated (st : state) (buf : slice) :
  wf_buf st buf -> 8 <= len buf -> tag_at st buf <> 0 ->
  len buf - 8 < size_at st buf ->
  walk_turn buf st = Panic SliceBounds.
Proof.
  intros Hwf H8 Ht Hs. rewrite walk_turn_body by assumption.
  destruct Hwf as (H0 & H1 & H2 & H3).
  apply bind_panic, reslice_out. lia.
Qed.

Lemma walk_turn_padding_cut (st : state) (buf : slice) :
  wf_buf st buf -> 8 <= len buf -> tag_at st buf <> 0 ->
  size_at st buf <= len buf - 8 -> len buf < stride (size_at st buf) ->
  walk_turn buf st = Panic SliceBounds.
Proof.
  intros Hwf H8 Ht Hs Hp. rewrite walk_turn_body by assumption.
  destruct Hwf as (H0 & H1 & H2 & H3).
  pose proof (size_at_range st buf).
  rewrite (bind_eq _ _ _ _ _
             (reslice_ok buf 8 (8 + size_at st buf) st ltac:(lia) ltac:(lia))).
  apply bind_panic, reslice_out. lia.
Qed.

Lemma walk_turn_continue (st : state) (buf : slice) :
  wf_buf st buf -> 8 <= len buf -> tag_at st buf <> 0 ->
  stride (size_at st buf) <= len buf ->
  walk_turn buf st =
  Ret (Continue
         (ExtHeader.mk (tag_at st buf) (size_at st buf)
            (mkSlice (off buf + 8) (size_at st buf) (cap buf - 8)))
         (advance buf (stride (size_at st buf))), st).
Proof.
  intros Hwf H8 Ht Hp. rewrite walk_turn_body by assumption.
  destruct Hwf as (H0 & H1 & H2 & H3).
  pose proof (size_at_range st buf).
  pose proof (stride_bounds (size_at st buf) ltac:(lia)).
  rewrite (bind_eq _ _ _ _ _
             (reslice_ok buf 8 (8 + size_at st buf) st ltac:(lia) ltac:(lia))).
  unfold reslice_from.
  rewrite (bind_eq _ _ _ _ _
             (reslice_ok buf (stride (size_at st buf)) (len buf) st
                ltac:(lia) ltac:(lia))).
  unfold ret, advance.
  replace (8 + size_at st buf - 8) with (size_at st buf) by lia.
  reflexivity.
Qed.

Lemma wf_buf_advance (st : state) (buf : slice) (n : Z) :
  wf_buf st buf -> 0 <= n <= len buf -> wf_buf st (advance buf n).
Proof.
  intros (H0 & H1 & H2 & H3) Hn. unfold wf_buf, advance; simpl. lia.
Qed.

Lemma load_advance (arr : bytes) (buf : slice) (n : Z) :
  0 <= off buf -> 0 <= n <= len buf ->
  load arr (advance buf n) = skipn (Z.to_nat n) (load arr buf).
Proof.
  intros H0 Hn. unfold load, advance; simpl.
  rewrite skipn_firstn_comm, skipn_skipn.
  f_equal; [|f_equal]; lia.
Qed.

Lemma load_length (st : state) (buf : slice) :
  wf_buf st buf -> Z.of_nat (length (load (mem st) buf)) = len buf.
Proof.
  intros (H0 & H1 & H2 & H3). rewrite load_sub, sub_length; lia.
Qed.

(** *** The walk only reads *)

Lemma read_only_ret {A} (a : A) : read_only (ret a).
Proof. intros st b st' H. inversion H. reflexivity. Qed.

Lemma read_only_panic {A} p : read_only (@panic A p).
Proof. intros st b st' H. discriminate H. Qed.

Lemma read_only_bind {A B} (m : M A) (k : A -> M B) :
  read_only m -> (forall a, read_only (k a)) -> read_only (bind m k).
Proof.
  intros Hm Hk st b st' H. unfold bind in H.
  destruct (m st) as [[a st1] | | |] eqn:E; try discriminate H.
  apply Hm in E. subst st1. exact (Hk a st b st' H).
Qed.

Lemma read_only_reslice (s : slice) (lo hi : Z) : read_only (reslice s lo hi).
Proof.
  unfold reslice. destruct ((0 <=? lo) && (lo <=? hi) && (hi <=? cap s)).
  - apply read_only_ret.
  - apply read_only_panic.
Qed.

Lemma read_only_index (s : slice) (i : Z) : read_only (index s i).
Proof.
  unfold index. destruct ((0 <=? i) && (i <? len s)).
  - apply read_only_bind.
    + intros st a st' H. inversion H. reflexivity.
    + intros arr. destruct (nth_error arr (Z.to_nat (off s + i))).
      * apply read_only_ret.
      * apply read_only_panic.
  - apply read_only_panic.
Qed.

Lemma read_only_be32 (s : slice) : read_only (be32 s).
Proof.
  unfold be32, Uint32.
  repeat (apply read_only_bind; [apply read_only_index | intros ?]).
  apply read_only_ret.
Qed.

Create HintDb read_only_db.
#[local] Hint Resolve read_only_ret read_only_panic read_only_reslice
  read_only_be32 : read_only_db.

Lemma read_only_walk_turn (buf : slice) : read_only (walk_turn buf).
Proof.
  unfold walk_turn, reslice_to, reslice_from.
  apply read_only_bind; [auto with read_only_db | intros s].
  apply read_only_bind; [auto with read_only_db | intros t].
  destruct (t =? HdrExtEndOfArea); [auto with read_only_db|].
  repeat (apply read_only_bind; [auto with read_only_db | intros ?]).
  auto with read_only_db.
Qed.

Lemma read_only_walk_loop (fuel : nat) :
  forall buf exts, read_only (walk_loop fuel buf exts).
Proof.
  induction fuel as [|fuel IH]; intros buf exts; simpl.
  - intros st a st' H. discriminate H.
  - apply read_only_bind; [apply read_only_walk_turn|].
    intros [|e buf']; [apply read_only_ret | apply IH].
Qed.

(** *** Runs of records *)

Lemma layout_length (r : record) :
  well_laid r -> 8 <= Z.of_nat (length (layout r)).
Proof.
  intros (_ & _ & _ & Hs & Hl). rewrite Hl.
  pose proof (stride_bounds (big_endian (r_size r))). lia.
Qed.

Lemma layouts_length (recs : list record) :
  Forall well_laid recs ->
  8 * Z.of_nat (length recs) <= Z.of_nat (length (flat_map layout recs)).
Proof.
  induction 1 as [|r rs Hr _ IH]; simpl; [lia|].
  rewrite length_app. pose proof (layout_length r Hr). lia.
Qed.

(** One turn over a well laid record at the cursor. *)
Lemma walk_turn_record (st : state) (buf : slice) (r : record) (rest : bytes) :
  wf_buf st buf -> well_laid r ->
  load (mem st) buf = layout r ++ rest ->
  exists e,
    walk_turn buf st
    = Ret (Continue e (advance buf (Z.of_nat (length (layout r)))), st)
    /\ shows st r e
    /\ load (mem st) (advance buf (Z.of_nat (length (layout r)))) = rest.
Proof.
  intros Hwf Hr Hload.
  pose proof (layout_length r Hr) as H8.
  pose proof (load_length st buf Hwf) as Hlen.
  destruct Hr as (Ht & Hs & Hnz & Hsz & Hl).
  rewrite Hload, length_app in Hlen.
  assert (Etag : tag_at st buf = big_endian (r_tag r)).
  { unfold tag_at. rewrite Hload. unfold layout. rewrite <- app_assoc.
    rewrite sub_app_l by lia. reflexivity. }
  assert (Esize : size_at st buf = big_endian (r_size r)).
  { unfold size_at. rewrite Hload. unfold layout. rewrite <- app_assoc.
    change 4 with (Z.of_nat 4 + 0) at 1. change 8 with (Z.of_nat 4 + 4).
    rewrite <- Ht, sub_app_r by lia. rewrite <- app_assoc.
    rewrite sub_app_l by lia. reflexivity. }
  eexists. split; [|split].
  - rewrite walk_turn_continue; try assumption; try lia.
    + rewrite Hl, <- Esize. reflexivity.
    + rewrite Esize, <- Hl. lia.
  - unfold shows; simpl. split; [exact Etag | split; [exact Esize|]].
    destruct Hwf as (H0 & H1 & H2 & H3).
    pose proof (stride_bounds (big_endian (r_size r)) ltac:(lia)) as Hb.
    rewrite load_sub; simpl.
    replace (off buf + 8 + size_at st buf)
      with (off buf + (8 + size_at st buf)) by lia.
    rewrite sub_load by (rewrite ?Esize; lia).
    rewrite Hload. unfold layout. rewrite <- !app_assoc.
    change 8 with (Z.of_nat 4 + 4) at 1.
    replace (8 + size_at st buf) with (Z.of_nat 4 + (4 + size_at st buf)) by lia.
    rewrite <- Ht, sub_app_r by (rewrite Esize; lia).
    change 4 with (Z.of_nat 4 + 0) at 1.
    replace (4 + size_at st buf) with (Z.of_nat 4 + size_at st buf) by lia.
    rewrite <- Hs, sub_app_r by (rewrite Esize; lia).
    rewrite sub_app_l by (rewrite Esize; lia). reflexivity.
  - destruct Hwf as (H0 & H1 & H2 & H3).
    rewrite load_advance by lia. rewrite Hload, Nat2Z.id.
    rewrite skipn_app, skipn_all, Nat.sub_diag. reflexivity.
Qed.

(** The loop over a run of well laid records: it appends one entry for
    each of them, in order, and goes on at the byte after the last. *)
Lemma walk_loop_records (recs : list record) :
  forall (st : state) (buf : slice) (exts : list ExtHeader.t) (fuel : nat)
         (rest : bytes),
    wf_buf st buf -> Forall well_laid recs ->
    load (mem st) buf = flat_map layout recs ++ rest ->
    exists es buf',
      walk_loop (length recs + fuel) buf exts st
      = walk_loop fuel buf' (exts ++ es) st
      /\ Forall2 (shows st) recs es
      /\ wf_buf st buf' /\ load (mem st) buf' = rest.
Proof.
  induction recs as [|r rs IH]; intros st buf exts fuel rest Hwf Hrecs Hload.
  - exists [], buf. rewrite app_nil_r. simpl in *. auto.
  - inversion Hrecs as [|? ? Hr Hrs]; subst.
    simpl in Hload. rewrite <- app_assoc in Hload.
    destruct (walk_turn_record st buf r _ Hwf Hr Hload) as (e & Eturn & Hshow & Hnext).
    assert (Hwf' : wf_buf st (advance buf (Z.of_nat (length (layout r))))).
    { apply wf_buf_advance; [assumption|].
      pose proof (load_length st buf Hwf) as Hlen.
      rewrite Hload, length_app in Hlen. lia. }
    destruct (IH st _ (exts ++ [e]) fuel rest Hwf' Hrs Hnext)
      as (es & buf' & Eloop & Hall & Hwf'' & Hrest).
    exists (e :: es), buf'. split; [|auto].
    simpl walk_loop. rewrite (bind_eq _ _ _ _ _ Eturn).
    rewrite Eloop, <- app_assoc. reflexivity.
Qed.

(** For a buffer of the program a turn panics on a slice expression,
    breaks, or steps over one record. *)
Lemma walk_turn_cases (st : state) (buf : slice) :
  wf_buf st buf ->
  walk_turn buf st = Panic SliceBounds
  \/ (4 <= len buf /\ tag_at st buf = 0 /\ walk_turn buf st = Ret (Break, st))
  \/ (8 <= len buf /\ tag_at st buf <> 0
      /\ stride (size_at st buf) <= len buf
      /\ walk_turn buf st =
         Ret (Continue
                (ExtHeader.mk (tag_at st buf) (size_at st buf)
                   (mkSlice (off buf + 8) (size_at st buf) (cap buf - 8)))
                (advance buf (stride (size_at st buf))), st)).
Proof.
  intros Hwf.
  destruct (Z.lt_ge_cases (len buf) 4) as [H4 | H4].
  { left. apply walk_turn_short4; assumption. }
  destruct (Z.eq_dec (tag_at st buf) 0) as [Ht | Ht].
  { right; left. repeat split; try assumption.
    apply walk_turn_break; assumption. }
  destruct (Z.lt_ge_cases (len buf) 8) as [H8 | H8].
  { left. apply walk_turn_short8; (assumption || lia). }
  destruct (Z.lt_ge_cases (len buf - 8) (size_at st buf)) as [Hs | Hs].
  { left. apply walk_turn_truncated; assumption. }
  destruct (Z.lt_ge_cases (len buf) (stride (size_at st buf))) as [Hp | Hp].
  { left. apply walk_turn_padding_cut; assumption. }
  right; right. repeat split; try assumption.
  apply walk_turn_continue; assumption.
Qed.

(** The loop ends within the bound [walkExtensions] gives it. *)
Lemma walk_loop_total (fuel : nat) :
  forall (st : state) (buf : slice) (exts : list ExtHeader.t),
    wf_buf st buf -> (Z.to_nat (len buf) < fuel)%nat ->
    walk_loop fuel buf exts st <> OutOfFuel.
Proof.
  induction fuel as [|fuel IH]; intros st buf exts Hwf Hfuel; [lia|].
  simpl walk_loop.
  destruct (walk_turn_cases st buf Hwf)
    as [E | [(_ & _ & E) | (H8 & Ht & Hs & E)]].
  - rewrite (bind_panic _ _ _ _ E). discriminate.
  - rewrite (bind_eq _ _ _ _ _ E). discriminate.
  - rewrite (bind_eq _ _ _ _ _ E).
    pose proof (size_at_range st buf) as Hr.
    pose proof (stride_bounds (size_at st buf) ltac:(lia)) as Hb.
    apply IH.
    + apply wf_buf_advance; [assumption | lia].
    + simpl. lia.
Qed.

Lemma walkExtensions_total (st : state) (buf : slice) :
  wf_buf st buf -> walkExtensions buf st <> OutOfFuel.
Proof.
  intros Hwf. apply walk_loop_total; [assumption | lia].
Qed.

(** The bound of [walkExtensions] covers a run of records and the turn
    after it. *)
Lemma walkExtensions_records (st : state) (buf : slice)
      (recs : list record) (rest : bytes) :
  wf_buf st buf -> Forall well_laid recs ->
  load (mem st) buf = flat_map layout recs ++ rest ->
  exists es buf' fuel,
    walkExtensions buf st = walk_loop (S fuel) buf' es st
    /\ Forall2 (shows st) recs es
    /\ wf_buf st buf' /\ load (mem st) buf' = rest.
Proof.
  intros Hwf Hrecs Hload.
  pose proof (layouts_length recs Hrecs) as Hn.
  pose proof (load_length st buf Hwf) as Hlen.
  rewrite Hload, length_app in Hlen.
  destruct (walk_loop_records recs st buf []
              (S (Z.to_nat (len buf) - length recs)) rest Hwf Hrecs Hload)
    as (es & buf' & E & Hall & Hwf' & Hrest).
  exists es, buf', (Z.to_nat (len buf) - length recs)%nat.
  split; [|auto].
  change ([] ++ es) with es in E.
  unfold walkExtensions. rewrite <- E. f_equal. lia.
Qed.

(** *** Entries of the result and the bytes of the buffer *)

Lemma read_at_cursor (st : state) (buf : slice) :
  wf_buf st buf -> 8 <= len buf -> stride (size_at st buf) <= len buf ->
  read_at st (off buf)
    (ExtHeader.mk (tag_at st buf) (size_at st buf)
       (mkSlice (off buf + 8) (size_at st buf) (cap buf - 8)))
    (off buf).
Proof.
  intros Hwf H8 Hs.
  pose proof (size_at_range st buf) as Hr.
  pose proof (stride_bounds (size_at st buf) ltac:(lia)) as Hb.
  destruct Hwf as (H0 & H1 & H2 & H3).
  unfold read_at; simpl.
  assert (L : load (mem st)
                (mkSlice (off buf + 8) (size_at st buf) (cap buf - 8))
              = sub (mem st) (off buf + 8) (off buf + 8 + size_at st buf)).
  { rewrite load_sub. reflexivity. }
  repeat split; try lia.
  - unfold tag_at. rewrite <- sub_load by lia.
    replace (off buf + 0) with (off buf) by lia. reflexivity.
  - unfold size_at. rewrite <- sub_load by lia.
    replace (off buf + 4 + 4) with (off buf + 8) by lia. reflexivity.
  - exact L.
  - rewrite L, sub_length by lia. lia.
Qed.

Lemma read_from_weaken (st : state) (lo lo' : Z) (e : ExtHeader.t) :
  lo' <= lo -> read_from st lo e -> read_from st lo' e.
Proof.
  intros Hle (pos & H & Hrest). exists pos. split; [lia | exact Hrest].
Qed.

Lemma walk_loop_read_from (fuel : nat) :
  forall (st st' : state) (lo : Z) (buf : slice) (exts out : list ExtHeader.t),
    wf_buf st buf -> lo <= off buf ->
    Forall (read_from st lo) exts ->
    Forall (fun e => ExtHeader.Type' e <> HdrExtEndOfArea) exts ->
    walk_loop fuel buf exts st = Ret (out, st') ->
    Forall (read_from st lo) out
    /\ Forall (fun e => ExtHeader.Type' e <> HdrExtEndOfArea) out.
Proof.
  induction fuel as [|fuel IH];
    intros st st' lo buf exts out Hwf Hlo Hexts Hnz Hrun; [discriminate Hrun|].
  simpl walk_loop in Hrun.
  destruct (walk_turn_cases st buf Hwf)
    as [E | [(_ & _ & E) | (H8 & Ht & Hs & E)]].
  - rewrite (bind_panic _ _ _ _ E) in Hrun. discriminate Hrun.
  - rewrite (bind_eq _ _ _ _ _ E) in Hrun. inversion Hrun; subst. auto.
  - rewrite (bind_eq _ _ _ _ _ E) in Hrun.
    pose proof (size_at_range st buf) as Hr.
    pose proof (stride_bounds (size_at st buf) ltac:(lia)) as Hb.
    apply (IH st st' lo _ _ out) in Hrun; try assumption.
    + apply wf_buf_advance; [assumption | lia].
    + simpl. lia.
    + apply Forall_app. split; [assumption|].
      constructor; [|constructor].
      apply (read_from_weaken st (off buf)); [assumption|].
      exists (off buf). apply read_at_cursor; assumption.
    + apply Forall_app. split; [assumption|].
      constructor; [exact Ht | constructor].
Qed.

(** *** Every walk that succeeds went over such a run of records *)

Lemma sub_split (l : bytes) (a b c : Z) :
  0 <= a <= b -> b <= c ->
  sub l a c = sub l a b ++ sub l b c.
Proof.
  intros H1 H2. unfold sub.
  replace (Z.to_nat (c - a)) with (Z.to_nat (b - a) + Z.to_nat (c - b))%nat by lia.
  replace (Z.to_nat b) with (Z.to_nat (b - a) + Z.to_nat a)%nat by lia.
  rewrite <- skipn_skipn.
  generalize (skipn (Z.to_nat a) l) as m. intros m.
  rewrite <- (firstn_skipn (Z.to_nat (b - a)) m) at 1.
  rewrite firstn_app, length_firstn.
  destruct (Nat.le_gt_cases (Z.to_nat (b - a)) (length m)) as [Hle | Hgt].
  - rewrite Nat.min_l by exact Hle.
    replace (Z.to_nat (b - a) + Z.to_nat (c - b) - Z.to_nat (b - a))%nat
      with (Z.to_nat (c - b)) by lia.
    f_equal. rewrite firstn_firstn. f_equal. lia.
  - rewrite (skipn_all2 m) by lia. rewrite !firstn_nil, !app_nil_r.
    rewrite firstn_firstn. f_equal. lia.
Qed.

Lemma sub_front_skipn (l : bytes) (k : Z) :
  0 <= k -> l = sub l 0 k ++ skipn (Z.to_nat k) l.
Proof.
  intros Hk. unfold sub. simpl skipn. rewrite Z.sub_0_r.
  symmetry. apply firstn_skipn.
Qed.

Lemma record_at_laid (st : state) (buf : slice) :
  wf_buf st buf -> 8 <= len buf -> tag_at st buf <> 0 ->
  stride (size_at st buf) <= len buf ->
  well_laid (record_at st buf)
  /\ layout (record_at st buf)
     = sub (load (mem st) buf) 0 (stride (size_at st buf))
  /\ shows st (record_at st buf)
       (ExtHeader.mk (tag_at st buf) (size_at st buf)
          (mkSlice (off buf + 8) (size_at st buf) (cap buf - 8))).
Proof.
  intros Hwf H8 Ht Hs.
  pose proof (size_at_range st buf) as Hr.
  pose proof (stride_bounds (size_at st buf) ltac:(lia)) as Hb.
  pose proof (load_length st buf Hwf) as Hlen.
  set (l := load (mem st) buf) in *.
  set (s := size_at st buf) in *.
  assert (Hlay : layout (record_at st buf) = sub l 0 (stride s)).
  { unfold layout, record_at; cbn [r_tag r_size r_payload r_padding].
    fold l. fold s.
    rewrite <- (sub_split l 8 (8 + s) (stride s)),
      <- (sub_split l 4 8 (stride s)), <- (sub_split l 0 4 (stride s)) by lia.
    reflexivity. }
  split; [|split].
  - unfold well_laid. rewrite Hlay.
    unfold record_at; cbn [r_tag r_size r_payload r_padding]. fold l. fold s.
    assert (L4 : Z.of_nat (length (sub l 0 4)) = 4) by (rewrite sub_length; lia).
    assert (L8 : Z.of_nat (length (sub l 4 8)) = 4) by (rewrite sub_length; lia).
    repeat split; try lia.
    + exact Ht.
    + change (big_endian (sub l 4 8)) with s. rewrite sub_length by lia. lia.
    + change (big_endian (sub l 4 8)) with s. rewrite sub_length by lia. lia.
  - exact Hlay.
  - unfold shows, record_at; cbn [r_tag r_size r_payload r_padding
      ExtHeader.Type' ExtHeader.Size ExtHeader.Data].
    repeat split.
    destruct Hwf as (H0 & H1 & H2 & H3).
    rewrite load_sub; cbn [off len].
    replace (off buf + 8 + s) with (off buf + (8 + s)) by lia.
    rewrite sub_load by lia. reflexivity.
Qed.

Lemma walk_loop_complete (fuel : nat) :
  forall (st st' : state) (buf : slice) (exts out : list ExtHeader.t),
    wf_buf st buf ->
    walk_loop fuel buf exts st = Ret (out, st') ->
    exists recs tail es,
      out = exts ++ es
      /\ Forall well_laid recs
      /\ load (mem st) buf = flat_map layout recs ++ tail
      /\ 4 <= Z.of_nat (length tail) /\ tag_of tail = HdrExtEndOfArea
      /\ Forall2 (shows st) recs es.
Proof.
  induction fuel as [|fuel IH]; intros st st' buf exts out Hwf Hrun;
    [discriminate Hrun|].
  simpl walk_loop in Hrun.
  destruct (walk_turn_cases st buf Hwf)
    as [E | [(H4 & Ht & E) | (H8 & Ht & Hs & E)]].
  - rewrite (bind_panic _ _ _ _ E) in Hrun. discriminate Hrun.
  - rewrite (bind_eq _ _ _ _ _ E) in Hrun. inversion Hrun; subst.
    exists [], (load (mem st') buf), []. rewrite app_nil_r.
    repeat split; try constructor.
    + rewrite (load_length st' buf Hwf). exact H4.
    + exact Ht.
  - rewrite (bind_eq _ _ _ _ _ E) in Hrun.
    pose proof (size_at_range st buf) as Hr.
    pose proof (stride_bounds (size_at st buf) ltac:(lia)) as Hb.
    assert (Hwf' : wf_buf st (advance buf (stride (size_at st buf))))
      by (apply wf_buf_advance; [assumption | lia]).
    destruct (IH st st' _ _ out Hwf' Hrun)
      as (recs & tail & es & Hout & Hrecs & Hload & Htail & Hend & Hall).
    destruct (record_at_laid st buf Hwf H8 Ht Hs) as (Hlaid & Hlay & Hshow).
    exists (record_at st buf :: recs), tail,
      (ExtHeader.mk (tag_at st buf) (size_at st buf)
         (mkSlice (off buf + 8) (size_at st buf) (cap buf - 8)) :: es).
    repeat split; try assumption.
    + rewrite Hout, <- app_assoc. reflexivity.
    + constructor; assumption.
    + simpl flat_map. rewrite <- app_assoc, <- Hload, Hlay.
      destruct Hwf as (H0 & H1 & H2 & H3).
      rewrite load_advance by lia.
      apply sub_front_skipn. lia.
    + constructor; assumption.
Qed.

(** ** Reading the image *)

Lemma skipn_nonempty (l : bytes) (n : nat) :
  (n < length l)%nat -> skipn n l <> [].
Proof.
  intros H E. apply (f_equal (@length byte)) in E.
  rewrite length_skipn in E. simpl in E. lia.
Qed.

Lemma store_nothing (arr : bytes) (at_ : Z) : store arr at_ [] = arr.
Proof.
  unfold store. simpl. rewrite Nat.add_0_r. apply firstn_skipn.
Qed.

(** [Read] into [b] when the file has [len b] bytes or more left. *)
Lemma Read_all (b : slice) (st : state) :
  0 <= len b -> 0 <= offset (fh st) -> len b <= left_in (fh st) ->
  Read b st
  = Ret ((len b, None),
         mkState (mkFile (contents (fh st)) (offset (fh st) + len b))
           (store (mem st) (off b)
              (sub (contents (fh st)) (offset (fh st))
                 (offset (fh st) + len b)))).
Proof.
  unfold left_in. intros Hb Ho Hle. unfold Read.
  destruct (Z.eqb_spec (len b) 0) as [E0 | N0].
  - rewrite E0. unfold sub.
    replace (Z.to_nat (offset (fh st) + 0 - offset (fh st))) with O by lia.
    simpl firstn. rewrite store_nothing, Z.add_0_r.
    destruct st as [[c o] m]. reflexivity.
  - destruct (skipn (Z.to_nat (offset (fh st))) (contents (fh st)))
      as [|x rest] eqn:E.
    { exfalso. revert E. apply skipn_nonempty. lia. }
    rewrite <- E. unfold sub.
    replace (Z.to_nat (offset (fh st) + len b - offset (fh st)))
      with (Z.to_nat (len b)) by lia.
    rewrite length_firstn, length_skipn.
    replace (Z.of_nat (Nat.min (Z.to_nat (len b))
               (length (contents (fh st)) - Z.to_nat (offset (fh st)))))
      with (len b) by lia.
    reflexivity.
Qed.

(** [Read] at the end of the file. *)
Lemma Read_eof (b : slice) (st : state) :
  0 < len b -> 0 <= offset (fh st) -> left_in (fh st) <= 0 ->
  Read b st = Ret ((0, Some EOF), st).
Proof.
  unfold left_in. intros Hb Ho Hle. unfold Read.
  replace (len b =? 0) with false by (symmetry; apply Z.eqb_neq; lia).
  rewrite skipn_all2 by lia. reflexivity.
Qed.

(** [Read] when fewer bytes are left than [b] holds: a short count. *)
Lemma Read_part (b : slice) (st : state) :
  0 <= offset (fh st) -> 0 < left_in (fh st) < len b ->
  exists st', Read b st = Ret ((left_in (fh st), None), st').
Proof.
  unfold left_in. intros Ho Hlt. unfold Read.
  replace (len b =? 0) with false by (symmetry; apply Z.eqb_neq; lia).
  destruct (skipn (Z.to_nat (offset (fh st))) (contents (fh st)))
    as [|x rest] eqn:E.
  { exfalso. revert E. apply skipn_nonempty. lia. }
  rewrite <- E. eexists.
  rewrite length_firstn, length_skipn.
  replace (Z.of_nat (Nat.min (Z.to_nat (len b))
             (length (contents (fh st)) - Z.to_nat (offset (fh st)))))
    with (Z.of_nat (length (contents (fh st))) - offset (fh st)) by lia.
  reflexivity.
Qed.

Lemma read_full_ok (b : slice) (st : state) :
  0 <= len b -> 0 <= offset (fh st) -> len b <= left_in (fh st) ->
  read_full b (len b) st
  = Ret (tt,
         mkState (mkFile (contents (fh st)) (offset (fh st) + len b))
           (store (mem st) (off b)
              (sub (contents (fh st)) (offset (fh st))
                 (offset (fh st) + len b)))).
Proof.
  intros Hb Ho Hle. unfold read_full.
  rewrite (bind_eq _ _ _ _ _ (Read_all b st Hb Ho Hle)). simpl.
  rewrite Z.ltb_irrefl. reflexivity.
Qed.

Lemma read_full_eof (b : slice) (st : state) :
  0 < len b -> 0 <= offset (fh st) -> left_in (fh st) <= 0 ->
  read_full b (len b) st = Exit (ErrRead EOF).
Proof.
  intros Hb Ho Hle. unfold read_full.
  rewrite (bind_eq _ _ _ _ _ (Read_eof b st Hb Ho Hle)). reflexivity.
Qed.

Lemma read_full_short (b : slice) (st : state) :
  0 <= offset (fh st) -> 0 < left_in (fh st) < len b ->
  read_full b (len b) st = Exit ErrShortRead.
Proof.
  intros Ho Hlt. unfold read_full.
  destruct (Read_part b st Ho Hlt) as (st' & E).
  rewrite (bind_eq _ _ _ _ _ E). simpl.
  replace (left_in (fh st) <? len b) with true
    by (symmetry; apply Z.ltb_lt; lia).
  reflexivity.
Qed.

(** ** The magic *)

Lemma u8_inj (x y : byte) : u8 x = u8 y -> x = y.
Proof.
  unfold u8. intros H. apply N2Z.inj in H.
  assert (E : Byte.of_N (Byte.to_N x) = Byte.of_N (Byte.to_N y)) by (rewrite H; reflexivity).
  rewrite !Byte.of_to_N in E. inversion E. reflexivity.
Qed.

Lemma bytes_Compare_eq (a b : bytes) : bytes_Compare a b = 0 <-> a = b.
Proof.
  revert b. induction a as [|x a IH]; intros [|y b]; simpl;
    try (split; [discriminate | discriminate]); [tauto|].
  destruct (Z.ltb_spec (u8 x) (u8 y)); [split; [discriminate | intros E; inversion E; subst; lia]|].
  destruct (Z.ltb_spec (u8 y) (u8 x)); [split; [discriminate | intros E; inversion E; subst; lia]|].
  rewrite IH. assert (x = y) by (apply u8_inj; lia). subst y.
  split; [intros ->; reflexivity | intros E; inversion E; reflexivity].
Qed.

(** ** 64-bit fields *)

Lemma sub_8 (arr : bytes) (lo : Z) :
  0 <= lo -> lo + 8 <= Z.of_nat (length arr) ->
  exists b0 b1 b2 b3 b4 b5 b6 b7,
    nth_error arr (Z.to_nat lo) = Some b0
    /\ nth_error arr (Z.to_nat (lo + 1)) = Some b1
    /\ nth_error arr (Z.to_nat (lo + 2)) = Some b2
    /\ nth_error arr (Z.to_nat (lo + 3)) = Some b3
    /\ nth_error arr (Z.to_nat (lo + 4)) = Some b4
    /\ nth_error arr (Z.to_nat (lo + 5)) = Some b5
    /\ nth_error arr (Z.to_nat (lo + 6)) = Some b6
    /\ nth_error arr (Z.to_nat (lo + 7)) = Some b7
    /\ sub arr lo (lo + 8) = [b0; b1; b2; b3; b4; b5; b6; b7].
Proof.
  intros H1 H2.
  destruct (sub_4 arr lo) as (b0 & b1 & b2 & b3 & E0 & E1 & E2 & E3 & S0); try lia.
  destruct (sub_4 arr (lo + 4)) as (b4 & b5 & b6 & b7 & E4 & E5 & E6 & E7 & S1); try lia.
  exists b0, b1, b2, b3, b4, b5, b6, b7.
  replace (lo + 4 + 1) with (lo + 5) in * by lia.
  replace (lo + 4 + 2) with (lo + 6) in * by lia.
  replace (lo + 4 + 3) with (lo + 7) in * by lia.
  replace (lo + 4 + 4) with (lo + 8) in * by lia.
  repeat (split; [assumption|]).
  assert (Hsplit : sub arr lo (lo + 8) = sub arr lo (lo + 4) ++ sub arr (lo + 4) (lo + 8)).
  { unfold sub.
    replace (Z.to_nat (lo + 8 - lo)) with (4 + 4)%nat by lia.
    replace (Z.to_nat (lo + 4 - lo)) with 4%nat by lia.
    replace (Z.to_nat (lo + 8 - (lo + 4))) with 4%nat by lia.
    replace (Z.to_nat (lo + 4)) with (4 + Z.to_nat lo)%nat by lia.
    rewrite <- skipn_skipn.
    rewrite <- (firstn_skipn 4 (skipn (Z.to_nat lo) arr)) at 1.
    rewrite firstn_app, firstn_firstn, length_firstn.
    replace (Nat.min (4 + 4) 4) with 4%nat by lia.
    f_equal. f_equal. rewrite length_skipn. lia. }
  rewrite Hsplit, S0, S1. reflexivity.
Qed.

Lemma Uint64_at (s : slice) (st : state) :
  0 <= off s -> 8 <= len s -> off s + 8 <= Z.of_nat (length (mem st)) ->
  Uint64 s st = Ret (big_endian (sub (mem st) (off s) (off s + 8)), st).
Proof.
  intros H0 H1 H2.
  destruct (sub_8 (mem st) (off s) H0 H2)
    as (b0 & b1 & b2 & b3 & b4 & b5 & b6 & b7
        & E0 & E1 & E2 & E3 & E4 & E5 & E6 & E7 & ->).
  rewrite <- (Z.add_0_r (off s)) in E0.
  assert (I7 := index_ok s 7 st b7 ltac:(lia) E7).
  assert (I6 := index_ok s 6 st b6 ltac:(lia) E6).
  assert (I5 := index_ok s 5 st b5 ltac:(lia) E5).
  assert (I4 := index_ok s 4 st b4 ltac:(lia) E4).
  assert (I3 := index_ok s 3 st b3 ltac:(lia) E3).
  assert (I2 := index_ok s 2 st b2 ltac:(lia) E2).
  assert (I1 := index_ok s 1 st b1 ltac:(lia) E1).
  assert (I0 := index_ok s 0 st b0 ltac:(lia) E0).
  unfold Uint64.
  rewrite (bind_eq _ _ _ _ _ I7), (bind_eq _ _ _ _ _ I7),
    (bind_eq _ _ _ _ _ I6), (bind_eq _ _ _ _ _ I5), (bind_eq _ _ _ _ _ I4),
    (bind_eq _ _ _ _ _ I3), (bind_eq _ _ _ _ _ I2), (bind_eq _ _ _ _ _ I1),
    (bind_eq _ _ _ _ _ I0).
  unfold ret. rewrite Uint64_value. reflexivity.
Qed.

Lemma be64_at (s : slice) (st : state) :
  0 <= off s -> 8 <= len s -> off s + 8 <= Z.of_nat (length (mem st)) ->
  be64 s st
  = Ret (int64_of_uint64 (big_endian (sub (mem st) (off s) (off s + 8))), st).
Proof.
  intros H0 H1 H2. unfold be64.
  rewrite (bind_eq _ _ _ _ _ (Uint64_at s st H0 H1 H2)). reflexivity.
Qed.

(** ** The fixed header *)

Lemma store_front (arr data : bytes) :
  store arr 0 data = data ++ skipn (length data) arr.
Proof. reflexivity. Qed.

Lemma store_whole (arr data : bytes) :
  length data = length arr -> store arr 0 data = data.
Proof.
  intros H. rewrite store_front, H, skipn_all. apply app_nil_r.
Qed.

Ltac go :=
  first
    [ erewrite bind_eq by (apply reslice_ok; cbn [off len cap]; lia)
    | erewrite bind_eq by (apply be32_at; cbn [off len cap]; lia)
    | erewrite bind_eq by (apply be64_at; cbn [off len cap]; lia) ].

Lemma make_eq (n : Z) (st : state) :
  make n st = Ret (mkSlice 0 n n, mkState (fh st) (repeat x00 (Z.to_nat n))).
Proof. reflexivity. Qed.

Lemma first_read (image : bytes) :
  72 <= Z.of_nat (length image) ->
  read_full (mkSlice 0 72 72) 72
    (mkState (os_Open image) (repeat x00 (Z.to_nat 72)))
  = Ret (tt, after_v2 image).
Proof.
  intros Hlen.
  change (read_full (mkSlice 0 72 72) 72)
    with (read_full (mkSlice 0 72 72) (len (mkSlice 0 72 72))).
  rewrite read_full_ok by (unfold left_in; simpl; lia).
  unfold after_v2, os_Open. cbn [fh mem contents offset off len].
  change (0 + 72) with 72.
  rewrite store_whole; [reflexivity|].
  apply Nat2Z.inj. rewrite (sub_length image 0 72) by lia.
  rewrite repeat_length. reflexivity.
Qed.

Arguments sub : simpl never.
Arguments big_endian : simpl never.
Arguments int64_of_uint64 : simpl never.
Arguments store : simpl never.

Lemma sub_header (image : bytes) (a b : Z) :
  0 <= a <= b -> b <= 72 -> sub (sub image 0 72) a b = sub image a b.
Proof.
  intros H1 H2. rewrite sub_sub by lia. reflexivity.
Qed.

Lemma get_mem_eq (st : state) : get_mem st = Ret (mem st, st).
Proof. reflexivity. Qed.

(** With 72 bytes and the magic, the v2 fields are decoded. *)
Lemma decodeHeader_fixed (image : bytes) :
  72 <= Z.of_nat (length image) -> sub image 0 4 = Qcow2Magic ->
  decodeHeader (initial image)
  = decode_v3 (mkSlice 0 72 72) (fixed_fields image) (after_v2 image).
Proof.
  intros Hlen Hmagic. unfold decodeHeader, Qcow2V2HeaderSize.
  rewrite (bind_eq _ _ _ _ _ (make_eq _ _)).
  unfold initial. cbn [fh].
  rewrite (bind_eq _ _ _ _ _ (first_read image Hlen)).
  assert (Hmem : Z.of_nat (length (mem (after_v2 image))) = 72).
  { unfold after_v2; cbn [mem]. rewrite sub_length; lia. }
  unfold reslice_to. go.
  rewrite (bind_eq _ _ _ _ _ (get_mem_eq _)). cbn [off len cap].
  replace (load (mem (after_v2 image)) (mkSlice (0 + 0) (4 - 0) (72 - 0)))
    with Qcow2Magic.
  2: { rewrite load_sub. unfold after_v2; cbn [mem off len].
       rewrite sub_header by lia. symmetry. exact Hmagic. }
  replace (bytes_Compare Qcow2Magic Qcow2Magic =? 0) with true
    by reflexivity.
  cbn [negb].
  do 24 go.
  cbn [off len].
  change (mem (after_v2 image)) with (sub image 0 72).
  simpl Z.add.
  rewrite !sub_header by lia.
  reflexivity.
Qed.

(** A wrong magic ends the run with the diagnostic of line 34. *)
Lemma decodeHeader_magic (image : bytes) :
  72 <= Z.of_nat (length image) -> sub image 0 4 <> Qcow2Magic ->
  decodeHeader (initial image) = Exit ErrBadMagic.
Proof.
  intros Hlen Hmagic. unfold decodeHeader, Qcow2V2HeaderSize.
  rewrite (bind_eq _ _ _ _ _ (make_eq _ _)).
  unfold initial. cbn [fh].
  rewrite (bind_eq _ _ _ _ _ (first_read image Hlen)).
  unfold reslice_to. go.
  rewrite (bind_eq _ _ _ _ _ (get_mem_eq _)). cbn [off len cap].
  replace (load (mem (after_v2 image)) (mkSlice (0 + 0) (4 - 0) (72 - 0)))
    with (sub image 0 4).
  2: { rewrite load_sub. unfold after_v2; cbn [mem off len].
       rewrite sub_header by lia. reflexivity. }
  destruct (Z.eqb_spec (bytes_Compare (sub image 0 4) Qcow2Magic) 0) as [E | E].
  - apply bytes_Compare_eq in E. contradiction.
  - reflexivity.
Qed.

(** An image shorter than the v2 header. *)
Lemma decodeHeader_short (image : bytes) :
  Z.of_nat (length image) < 72 ->
  decodeHeader (initial image)
  = Exit (if Z.of_nat (length image) =? 0 then ErrRead EOF else ErrShortRead).
Proof.
  intros Hlen. unfold decodeHeader, Qcow2V2HeaderSize.
  rewrite (bind_eq _ _ _ _ _ (make_eq _ _)).
  unfold initial. cbn [fh].
  apply bind_exit.
  change (read_full (mkSlice 0 72 72) 72)
    with (read_full (mkSlice 0 72 72) (len (mkSlice 0 72 72))).
  destruct (Z.eqb_spec (Z.of_nat (length image)) 0) as [E | E].
  - apply read_full_eof; unfold left_in; simpl; lia.
  - apply read_full_short; unfold left_in; simpl; lia.
Qed.

(** ** The v3 fields *)

Lemma sub_app_within (l1 l2 : bytes) (a b : Z) :
  0 <= a <= b -> b <= Z.of_nat (length l1) ->
  sub (l1 ++ l2) a b = sub l1 a b.
Proof.
  intros H1 H2. unfold sub.
  rewrite skipn_app, firstn_app, length_skipn.
  replace (Z.to_nat (b - a) - (length l1 - Z.to_nat a))%nat with O by lia.
  simpl. apply app_nil_r.
Qed.

Lemma second_read (image : bytes) :
  104 <= Z.of_nat (length image) ->
  read_full (mkSlice 0 32 72) 32 (after_v2 image) = Ret (tt, after_v3 image).
Proof.
  intros Hlen.
  change (read_full (mkSlice 0 32 72) 32)
    with (read_full (mkSlice 0 32 72) (len (mkSlice 0 32 72))).
  rewrite read_full_ok by (unfold left_in; simpl; lia).
  unfold after_v2, after_v3. cbn [fh mem contents offset off len].
  change (72 + 32) with 104.
  rewrite store_front.
  replace (length (sub image 72 104)) with 32%nat; [reflexivity|].
  apply Nat2Z.inj. rewrite sub_length by lia. reflexivity.
Qed.

Lemma sub_v3 (image : bytes) (a b : Z) :
  104 <= Z.of_nat (length image) -> 0 <= a <= b -> b <= 32 ->
  sub (mem (after_v3 image)) a b = sub image (72 + a) (72 + b).
Proof.
  intros Hlen H1 H2. unfold after_v3; cbn [mem].
  rewrite sub_app_within by (rewrite ?sub_length; lia).
  apply sub_sub; lia.
Qed.

Lemma decode_v3_plain (buf : slice) (q : Header.t) (st : state) :
  Header.Version q <> 3 -> decode_v3 buf q st = Ret (q, st).
Proof.
  intros Hv. unfold decode_v3.
  apply Z.eqb_neq in Hv. rewrite Hv. reflexivity.
Qed.

Lemma decode_v3_fields (image : bytes) (q : Header.t) :
  104 <= Z.of_nat (length image) -> Header.Version q = 3 ->
  decode_v3 (mkSlice 0 72 72) q (after_v2 image)
  = Ret (Header.set_v3 q
           (big_endian (sub image 72 76))
           (big_endian (sub image 80 84))
           (big_endian (sub image 88 92))
           (big_endian (sub image 96 100))
           (big_endian (sub image 100 104)),
         after_v3 image).
Proof.
  intros Hlen Hv. unfold decode_v3, Qcow2V3HeaderSize, Qcow2V2HeaderSize.
  rewrite Hv. change (3 =? 3) with true. cbv iota.
  change (104 - 72) with 32.
  unfold reslice_to. go. cbn [off len cap].
  change (0 + 0) with 0. change (32 - 0) with 32. change (72 - 0) with 72.
  rewrite (bind_eq _ _ _ _ _ (second_read image Hlen)).
  assert (Hmem : Z.of_nat (length (mem (after_v3 image))) = 72).
  { unfold after_v3; cbn [mem].
    pose proof (sub_length image 72 104 ltac:(lia) ltac:(lia)).
    pose proof (sub_length image 0 72 ltac:(lia) ltac:(lia)).
    rewrite length_app, length_skipn. lia. }
  do 10 go.
  cbn [off len]. simpl Z.add.
  rewrite !sub_v3 by lia. reflexivity.
Qed.

Lemma decode_v3_cut (image : bytes) (q : Header.t) :
  72 <= Z.of_nat (length image) < 104 -> Header.Version q = 3 ->
  decode_v3 (mkSlice 0 72 72) q (after_v2 image)
  = Exit (if Z.of_nat (length image) =? 72 then ErrRead EOF else ErrShortRead).
Proof.
  intros Hlen Hv. unfold decode_v3, Qcow2V3HeaderSize, Qcow2V2HeaderSize.
  rewrite Hv. change (3 =? 3) with true. cbv iota.
  change (104 - 72) with 32.
  unfold reslice_to. go. cbn [off len cap].
  change (0 + 0) with 0. change (32 - 0) with 32. change (72 - 0) with 72.
  apply bind_exit.
  change (read_full (mkSlice 0 32 72) 32)
    with (read_full (mkSlice 0 32 72) (len (mkSlice 0 32 72))).
  destruct (Z.eqb_spec (Z.of_nat (length image)) 72) as [E | E].
  - apply read_full_eof; unfold left_in; simpl; lia.
  - apply read_full_short; unfold left_in; simpl; lia.
Qed.

(** ** The extension area *)

Lemma readExtArea_ok (q : Header.t) (st : state) :
  0 <= Header.HeaderLength q -> 0 <= offset (fh st) ->
  Header.HeaderLength q <= left_in (fh st) ->
  readExtArea q st
  = Ret (mkSlice 0 (Header.HeaderLength q) (Header.HeaderLength q),
         after_ext (contents (fh st)) (offset (fh st)) (Header.HeaderLength q)).
Proof.
  intros Hq Ho Hle. unfold readExtArea.
  rewrite (bind_eq _ _ _ _ _ (make_eq _ _)).
  set (n := Header.HeaderLength q) in *.
  change (read_full (mkSlice 0 n n) n)
    with (read_full (mkSlice 0 n n) (len (mkSlice 0 n n))).
  rewrite (bind_eq _ _ _ _ _
             (read_full_ok (mkSlice 0 n n)
                (mkState (fh st) (repeat x00 (Z.to_nat n))) Hq Ho Hle)).
  unfold ret, after_ext. cbn [fh mem off len].
  rewrite store_whole; [reflexivity|].
  apply Nat2Z.inj. unfold left_in in Hle.
  rewrite sub_length, repeat_length by lia. lia.
Qed.

Lemma wf_buf_ext (image : bytes) (at_ n : Z) :
  0 <= at_ -> 0 <= n -> at_ + n <= Z.of_nat (length image) ->
  wf_buf (after_ext image at_ n) (mkSlice 0 n n).
Proof.
  intros H0 H1 H2. unfold wf_buf, after_ext; simpl.
  rewrite sub_length by lia. lia.
Qed.

(** ** Results of [decodeHeader] *)

Lemma decodeHeader_plain (image : bytes) :
  72 <= Z.of_nat (length image) -> sub image 0 4 = Qcow2Magic ->
  version_of image <> 3 ->
  run decodeHeader image = Ret (fixed_fields image, after_v2 image).
Proof.
  intros Hlen Hmagic Hv. unfold run.
  rewrite decodeHeader_fixed by assumption.
  apply decode_v3_plain. exact Hv.
Qed.

Lemma decodeHeader_v3 (image : bytes) :
  104 <= Z.of_nat (length image) -> sub image 0 4 = Qcow2Magic ->
  version_of image = 3 ->
  run decodeHeader image = Ret (v3_fields image, after_v3 image).
Proof.
  intros Hlen Hmagic Hv. unfold run.
  rewrite decodeHeader_fixed by (assumption || lia).
  apply decode_v3_fields; assumption.
Qed.

Lemma decodeHeader_v3_cut (image : bytes) :
  72 <= Z.of_nat (length image) < 104 -> sub image 0 4 = Qcow2Magic ->
  version_of image = 3 ->
  run decodeHeader image
  = Exit (if Z.of_nat (length image) =? 72 then ErrRead EOF else ErrShortRead).
Proof.
  intros Hlen Hmagic Hv. unfold run.
  rewrite decodeHeader_fixed by (assumption || lia).
  apply decode_v3_cut; assumption.
Qed.

Lemma magic_dec (image : bytes) :
  {sub image 0 4 = Qcow2Magic} + {sub image 0 4 <> Qcow2Magic}.
Proof. apply list_eq_dec, Byte.byte_eq_dec. Qed.

(** Every header [decodeHeader] returns is one of the two above. *)
Lemma decodeHeader_result (image : bytes) (q : Header.t) (st : state) :
  run decodeHeader image = Ret (q, st) ->
  sub image 0 4 = Qcow2Magic
  /\ ((version_of image <> 3 /\ 72 <= Z.of_nat (length image)
       /\ q = fixed_fields image /\ st = after_v2 image)
      \/ (version_of image = 3 /\ 104 <= Z.of_nat (length image)
          /\ q = v3_fields image /\ st = after_v3 image)).
Proof.
  intros Hrun.
  destruct (Z.lt_ge_cases (Z.of_nat (length image)) 72) as [Hs | Hlen].
  { unfold run in Hrun. rewrite decodeHeader_short in Hrun by assumption.
    discriminate Hrun. }
  destruct (magic_dec image) as [Hmagic | Hmagic].
  2: { unfold run in Hrun. rewrite decodeHeader_magic in Hrun by assumption.
       discriminate Hrun. }
  split; [assumption|].
  destruct (Z.eq_dec (version_of image) 3) as [Hv | Hv].
  - destruct (Z.lt_ge_cases (Z.of_nat (length image)) 104) as [Hc | H104].
    + rewrite decodeHeader_v3_cut in Hrun by (assumption || lia).
      discriminate Hrun.
    + rewrite decodeHeader_v3 in Hrun by assumption.
      inversion Hrun; subst. right. auto.
  - rewrite decodeHeader_plain in Hrun by assumption.
    inversion Hrun; subst. left. auto.
Qed.

Lemma decodeHeader_total (image : bytes) :
  run decodeHeader image <> OutOfFuel.
Proof.
  destruct (Z.lt_ge_cases (Z.of_nat (length image)) 72) as [Hs | Hlen].
  { unfold run. rewrite decodeHeader_short by assumption. discriminate. }
  destruct (magic_dec image) as [Hmagic | Hmagic].
  2: { unfold run. rewrite decodeHeader_magic by assumption. discriminate. }
  destruct (Z.eq_dec (version_of image) 3) as [Hv | Hv].
  - destruct (Z.lt_ge_cases (Z.of_nat (length image)) 104) as [Hc | H104].
    + rewrite decodeHeader_v3_cut by (assumption || lia). discriminate.
    + rewrite decodeHeader_v3 by assumption. discriminate.
  - rewrite decodeHeader_plain by assumption. discriminate.
Qed.

Lemma decodeHeader_position (image : bytes) (q : Header.t) (st : state) :
  run decodeHeader image = Ret (q, st) ->
  contents (fh st) = image /\ offset (fh st) = fixed_size q
  /\ 72 <= fixed_size q <= Z.of_nat (length image)
  /\ 0 <= Header.HeaderLength q.
Proof.
  intros Hrun. apply decodeHeader_result in Hrun.
  destruct Hrun as (_ & [(Hv & Hlen & -> & ->) | (Hv & Hlen & -> & ->)]);
    unfold fixed_size.
  - change (Header.Version (fixed_fields image)) with (version_of image).
    apply Z.eqb_neq in Hv. rewrite Hv. simpl. repeat split; lia.
  - change (Header.Version (v3_fields image)) with (version_of image).
    rewrite Hv. simpl. repeat split; try lia.
    apply big_endian_sub4_range.
Qed.

(** ** The header decoder *)

(** C8: an image of 72 bytes or more whose first four bytes are not the
    magic ends the run with the bad-magic diagnostic, whatever the bytes
    after them are, and no header is returned. *)
Theorem bad_magic_rejected (image : bytes) :
  72 <= Z.of_nat (length image) -> sub image 0 4 <> Qcow2Magic ->
  run decodeHeader image = Exit ErrBadMagic
  /\ forall q st, run decodeHeader image <> Ret (q, st).
Proof.
  intros Hlen Hmagic.
  assert (E : run decodeHeader image = Exit ErrBadMagic)
    by (apply decodeHeader_magic; assumption).
  split; [exact E|]. intros q st. rewrite E. discriminate.
Qed.

Lemma bad_magic_rejected_witness :
  run decodeHeader header_no_magic = Exit ErrBadMagic
  /\ forall q st, run decodeHeader header_no_magic <> Ret (q, st).
Proof.
  apply (bad_magic_rejected header_no_magic).
  - vm_compute. discriminate.
  - vm_compute. discriminate.
Defined.

(** C7: for an image of 72 bytes or more with the magic and version 2,
    the decoder returns a header with Version 2 and HeaderLength 72 whose
    v3 fields are all zero. *)
Theorem v2_header_decoded (image : bytes) :
  72 <= Z.of_nat (length image) -> sub image 0 4 = Qcow2Magic ->
  version_of image = 2 ->
  exists q st,
    run decodeHeader image = Ret (q, st)
    /\ Header.Version q = 2 /\ Header.HeaderLength q = 72
    /\ Header.IncompatibleFeatures q = 0 /\ Header.CompatibleFeatures q = 0
    /\ Header.AutoclearFeatures q = 0 /\ Header.RefcountOrder q = 0.
Proof.
  intros Hlen Hmagic Hv.
  exists (fixed_fields image), (after_v2 image). split.
  - apply decodeHeader_plain; (assumption || lia).
  - simpl. repeat split. exact Hv.
Qed.

Lemma v2_header_decoded_witness :
  exists q st,
    run decodeHeader header_v2 = Ret (q, st)
    /\ Header.Version q = 2 /\ Header.HeaderLength q = 72
    /\ Header.IncompatibleFeatures q = 0 /\ Header.CompatibleFeatures q = 0
    /\ Header.AutoclearFeatures q = 0 /\ Header.RefcountOrder q = 0.
Proof.
  apply (v2_header_decoded header_v2).
  - vm_compute. discriminate.
  - reflexivity.
  - reflexivity.
Defined.

(** C5, as the code has it: for an image of 72 bytes or more with the
    magic whose version field is neither 2 nor 3, the decoder does not
    fail; it returns a header with that version, the v2 fields,
    HeaderLength 72 and the v3 fields zero. *)
Theorem other_version_decoded_as_v2 (image : bytes) :
  72 <= Z.of_nat (length image) -> sub image 0 4 = Qcow2Magic ->
  version_of image <> 2 -> version_of image <> 3 ->
  run decodeHeader image = Ret (fixed_fields image, after_v2 image)
  /\ Header.Version (fixed_fields image) = version_of image
  /\ Header.HeaderLength (fixed_fields image) = 72
  /\ Header.IncompatibleFeatures (fixed_fields image) = 0
  /\ Header.CompatibleFeatures (fixed_fields image) = 0
  /\ Header.AutoclearFeatures (fixed_fields image) = 0
  /\ Header.RefcountOrder (fixed_fields image) = 0.
Proof.
  intros Hlen Hmagic Hv2 Hv3. split.
  - apply decodeHeader_plain; assumption.
  - simpl. repeat split.
Qed.

Lemma other_version_decoded_as_v2_witness :
  run decodeHeader header_v4 = Ret (fixed_fields header_v4, after_v2 header_v4)
  /\ Header.Version (fixed_fields header_v4) = version_of header_v4
  /\ Header.HeaderLength (fixed_fields header_v4) = 72
  /\ Header.IncompatibleFeatures (fixed_fields header_v4) = 0
  /\ Header.CompatibleFeatures (fixed_fields header_v4) = 0
  /\ Header.AutoclearFeatures (fixed_fields header_v4) = 0
  /\ Header.RefcountOrder (fixed_fields header_v4) = 0.
Proof.
  apply (other_version_decoded_as_v2 header_v4).
  - vm_compute. discriminate.
  - reflexivity.
  - vm_compute. discriminate.
  - vm_compute. discriminate.
Defined.

(** C5 fails as stated: the version field of [header_v4] is 4, and the
    decoder returns a header instead of ending the run with an error. *)
Lemma version_4_is_decoded :
  version_of header_v4 = 4
  /\ exists q st, run decodeHeader header_v4 = Ret (q, st)
                  /\ Header.Version q = 4 /\ Header.HeaderLength q = 72.
Proof.
  split; [reflexivity|].
  eexists. eexists. split; [vm_compute; reflexivity|]. split; reflexivity.
Qed.

(** C2 at an image the program can meet: the incompatible-features field
    of [header_v3_dirty], the 64-bit integer at bytes 72 to 80, is 1, yet
    the decoder, which reads it with [be32], returns 0 for it. *)
Theorem v3_features_read_as_32_bits :
  big_endian (sub header_v3_dirty 72 80) = 1
  /\ exists q st, run decodeHeader header_v3_dirty = Ret (q, st)
                  /\ Header.Version q = 3
                  /\ Header.IncompatibleFeatures q = 0
                  /\ Header.RefcountOrder q = 4
                  /\ Header.HeaderLength q = 104.
Proof.
  split; [reflexivity|].
  eexists. eexists. split; [vm_compute; reflexivity|].
  repeat split.
Qed.

(** ** From the header to the walk *)

Lemma inspect_after_header (image : bytes) (q : Header.t) (st : state) :
  run decodeHeader image = Ret (q, st) ->
  run inspect image
  = (buf <- readExtArea q ;;
     exts <- walkExtensions buf ;;
     ret (Header.set_ExtHeaders q exts)) st.
Proof.
  intros Hrun. unfold run, inspect.
  rewrite (bind_eq _ _ _ _ _ Hrun). reflexivity.
Qed.



(** A version 3 image whose header-length field is 104 and which has 8
    bytes after the fixed fields: the program asks for 104 bytes after
    offset 104 and stops on the short read. *)
Example v3_length_104_wants_104_more :
  run inspect (header_v3_dirty ++ zeros 8) = Exit ErrShortRead
  /\ exists q st, run inspect (header_v3_dirty ++ zeros 104) = Ret (q, st)
                  /\ offset (fh st) = 208.
Proof.
  split; [vm_compute; reflexivity|].
  eexists. eexists. split; [vm_compute; reflexivity | reflexivity].
Qed.

(** ** The walker *)

Lemma tag_at_of (st : state) (buf : slice) :
  tag_at st buf = tag_of (load (mem st) buf).
Proof. reflexivity. Qed.

Lemma size_at_of (st : state) (buf : slice) :
  size_at st buf = size_of (load (mem st) buf).
Proof. reflexivity. Qed.

(** After a record of size [s] the cursor is [stride s] bytes further. *)
Lemma walk_turn_stride (st st' : state) (buf buf' : slice) (e : ExtHeader.t) :
  wf_buf st buf ->
  walk_turn buf st = Ret (Continue e buf', st') ->
  ExtHeader.Size e = size_at st buf
  /\ off buf' = off buf + (8 + ExtHeader.Size e + Z.rem (ExtHeader.Size e) 8).
Proof.
  intros Hwf Hrun.
  destruct (walk_turn_cases st buf Hwf)
    as [E | [(_ & _ & E) | (H8 & Ht & Hs & E)]];
    rewrite E in Hrun; try discriminate Hrun.
  inversion Hrun; subst. simpl. split; reflexivity.
Qed.

(** Where the size is a multiple of 4 the stride is the aligned one. *)
Lemma stride_aligned (s : Z) :
  0 <= s -> s mod 4 = 0 ->
  stride s = 8 + s + (if s mod 8 =? 0 then 0 else 8 - s mod 8).
Proof.
  intros H0 H4. unfold stride. rewrite Z.rem_mod_nonneg by lia.
  assert (H8 : s mod 8 = 0 \/ s mod 8 = 4).
  { pose proof (Z.mod_pos_bound s 8 ltac:(lia)).
    pose proof (Z.div_mod s 8 ltac:(lia)). pose proof (Z.div_mod s 4 ltac:(lia)).
    lia. }
  destruct H8 as [-> | ->]; reflexivity.
Qed.

Example stride_size_8 : stride 8 = 16.
Proof. reflexivity. Qed.

(** C1 at an area the program can meet: after the record of size 5 the
    walker is 18 bytes further, not 16, and takes the bytes at 18 to 26
    for the next record header: the record at offset 16 is not found, an
    entry with the tag 0xF8570000 is listed in its place. *)
Theorem size_5_record_advances_18 :
  8 + 5 + (if 5 mod 8 =? 0 then 0 else 8 - 5 mod 8) = 16
  /\ tag_of (sub area_size_5 16 24) = HdrExtFeatureNameTable
  /\ (exists e buf',
        walk_turn buf_v2 (walk_start image_size_5)
        = Ret (Continue e buf', walk_start image_size_5)
        /\ ExtHeader.Size e = 5 /\ off buf' - off buf_v2 = 18)
  /\ (exists q st',
        run inspect image_size_5 = Ret (q, st')
        /\ map ExtHeader.Type' (Header.ExtHeaders q)
           = [HdrExtBackingFileFormat; 0xF8570000]).
Proof.
  split; [reflexivity|]. split; [reflexivity|]. split.
  - eexists. eexists. split; [vm_compute; reflexivity|].
    split; reflexivity.
  - eexists. eexists. split; [vm_compute; reflexivity|]. reflexivity.
Qed.




(** C4, as the code has it: when fewer than 8 bytes remain at the cursor
    and they do not start with a zero type tag, the walk returns no list;
    it stops with the runtime panic of a slice expression ([buf[:4]] with
    fewer than 4 bytes left, [buf[4:8]] otherwise), no byte outside the
    buffer being read. *)
Theorem exhausted_area_panics
        (st : state) (buf : slice) (recs : list record) (rest : bytes) :
  wf_buf st buf -> Forall well_laid recs ->
  load (mem st) buf = flat_map layout recs ++ rest ->
  Z.of_nat (length rest) < 8 ->
  Z.of_nat (length rest) < 4 \/ tag_of rest <> HdrExtEndOfArea ->
  walkExtensions buf st = Panic SliceBounds.
Proof.
  intros Hwf Hrecs Hload H8 Hcase.
  destruct (walkExtensions_records st buf recs rest Hwf Hrecs Hload)
    as (es & buf' & fuel & E & _ & Hwf' & Hrest).
  pose proof (load_length st buf' Hwf') as Hlen. rewrite Hrest in Hlen.
  rewrite E. simpl walk_loop. apply bind_panic.
  destruct (Z.lt_ge_cases (len buf') 4) as [H4 | H4].
  - apply walk_turn_short4; assumption.
  - destruct Hcase as [Hc | Hc]; [lia|].
    apply walk_turn_short8; rewrite ?tag_at_of, ?Hrest; (assumption || lia).
Qed.

(** C10: the walk of a buffer of the program ends; when it returns a
    list, the program state, and with it the bytes of the buffer, is the
    one it started from, and every entry was read from a record inside the
    buffer: its Size is the big-endian integer at bytes 4 to 8 of the
    record and its Data views exactly the Size bytes that follow the 8
    bytes of the record header. *)
Theorem entries_mirror_the_buffer (st : state) (buf : slice) :
  wf_buf st buf ->
  walkExtensions buf st <> OutOfFuel
  /\ forall exts st',
       walkExtensions buf st = Ret (exts, st') ->
       st' = st /\ Forall (read_from st (off buf)) exts.
Proof.
  intros Hwf. split; [apply walkExtensions_total; assumption|].
  intros exts st' Hrun. split.
  - exact (read_only_walk_loop _ _ _ _ _ _ Hrun).
  - apply (walk_loop_read_from _ st st' (off buf) buf [] exts Hwf
             (Z.le_refl _) (Forall_nil _) (Forall_nil _) Hrun).
Qed.

Ltac by_eval :=
  vm_compute; first [reflexivity | discriminate].

Ltac wf_by_eval :=
  unfold wf_buf; repeat split; by_eval.

Ltac laid_by_eval :=
  repeat (apply Forall_cons; [unfold well_laid; repeat split; by_eval|]);
  apply Forall_nil.




Lemma exhausted_area_panics_witness :
  walkExtensions buf_v2 (walk_start image_no_end) = Panic SliceBounds.
Proof.
  apply (exhausted_area_panics (walk_start image_no_end) buf_v2
           nine_records []).
  - wf_by_eval.
  - laid_by_eval.
  - by_eval.
  - by_eval.
  - left. by_eval.
Defined.

(** C4 fails as stated: [area_no_end] is used up by its nine records
    without an end-of-area tag, and the run ends in a panic, not in an
    error the program reports. *)
Lemma exhausted_area_run_panics :
  Forall (fun r => big_endian (r_tag r) <> HdrExtEndOfArea) nine_records
  /\ run inspect image_no_end = Panic SliceBounds
  /\ forall e, run inspect image_no_end <> Exit e.
Proof.
  split.
  { repeat (apply Forall_cons; [by_eval|]). apply Forall_nil. }
  assert (E : run inspect image_no_end = Panic SliceBounds)
    by (vm_compute; reflexivity).
  split; [exact E|]. intros e. rewrite E. discriminate.
Qed.

Lemma entries_mirror_the_buffer_witness :
  walkExtensions buf_v2 (walk_start image_two_records) <> OutOfFuel
  /\ forall exts st',
       walkExtensions buf_v2 (walk_start image_two_records) = Ret (exts, st') ->
       st' = walk_start image_two_records
       /\ Forall (read_from (walk_start image_two_records) (off buf_v2)) exts.
Proof.
  apply (entries_mirror_the_buffer (walk_start image_two_records) buf_v2).
  wf_by_eval.
Defined.

(** ** The whole run ends *)

Lemma readExtArea_cases (q : Header.t) (st : state) :
  0 <= Header.HeaderLength q -> 0 <= offset (fh st) ->
  0 <= left_in (fh st) ->
  readExtArea q st
  = Ret (mkSlice 0 (Header.HeaderLength q) (Header.HeaderLength q),
         after_ext (contents (fh st)) (offset (fh st)) (Header.HeaderLength q))
    /\ Header.HeaderLength q <= left_in (fh st)
  \/ exists e, readExtArea q st = Exit e.
Proof.
  intros Hq Ho Hl.
  destruct (Z.le_gt_cases (Header.HeaderLength q) (left_in (fh st))) as [Hle | Hgt].
  { left. split; [apply readExtArea_ok; assumption | assumption]. }
  right. unfold readExtArea.
  rewrite (bind_eq _ _ _ _ _ (make_eq _ _)).
  set (n := Header.HeaderLength q) in *.
  change (read_full (mkSlice 0 n n) n)
    with (read_full (mkSlice 0 n n) (len (mkSlice 0 n n))).
  destruct (Z.le_gt_cases (left_in (fh st)) 0) as [H0 | H0].
  - exists (ErrRead EOF). apply bind_exit.
    apply read_full_eof; simpl; lia.
  - exists ErrShortRead. apply bind_exit.
    apply read_full_short; simpl; lia.
Qed.

(** The loop bound of the model is never what ends a run. *)
Lemma inspect_terminates (image : bytes) : run inspect image <> OutOfFuel.
Proof.
  destruct (run decodeHeader image) as [[q st] | e | p |] eqn:Hrun.
  - rewrite (inspect_after_header image q st Hrun).
    destruct (decodeHeader_position image q st Hrun) as (Hc & Ho & Hfix & Hn).
    destruct (readExtArea_cases q st Hn ltac:(lia)
                ltac:(unfold left_in; rewrite Hc; lia))
      as [(E & Hle) | (e & E)].
    + rewrite (bind_eq _ _ _ _ _ E).
      assert (Hwf : wf_buf
                (after_ext (contents (fh st)) (offset (fh st)) (Header.HeaderLength q))
                (mkSlice 0 (Header.HeaderLength q) (Header.HeaderLength q))).
      { apply wf_buf_ext; unfold left_in in Hle; lia. }
      apply walkExtensions_total in Hwf.
      unfold bind.
      destruct (walkExtensions _ _) as [[exts st'] | | |];
        try discriminate. contradiction.
    + rewrite (bind_exit _ _ _ _ E). discriminate.
  - unfold run, inspect in *. rewrite (bind_exit _ _ _ _ Hrun). discriminate.
  - unfold run, inspect in *. rewrite (bind_panic _ _ _ _ Hrun). discriminate.
  - exfalso. exact (decodeHeader_total image Hrun).
Qed.

(** * More of the program *)

(** ** Images that are too short *)

(** X1: an image of fewer than 72 bytes yields no header, whatever its
    bytes are: the run ends with the error of [Read] (end of file) when
    the image is empty and with the short-read diagnostic otherwise. *)
Theorem short_image_exits (image : bytes) :
  Z.of_nat (length image) < 72 ->
  run decodeHeader image
  = Exit (if Z.of_nat (length image) =? 0 then ErrRead EOF else ErrShortRead)
  /\ run inspect image
     = Exit (if Z.of_nat (length image) =? 0 then ErrRead EOF else ErrShortRead).
Proof.
  intros Hlen.
  assert (E : run decodeHeader image
              = Exit (if Z.of_nat (length image) =? 0
                      then ErrRead EOF else ErrShortRead))
    by (apply decodeHeader_short; exact Hlen).
  split; [exact E|].
  unfold run, inspect. apply bind_exit. exact E.
Qed.

Lemma short_image_exits_witness :
  run decodeHeader image_short = Exit ErrShortRead
  /\ run inspect image_short = Exit ErrShortRead.
Proof.
  apply (short_image_exits image_short).
  vm_compute. reflexivity.
Defined.

(** X2: a version 3 header that ends before byte 104 yields no header:
    the second read meets the end of the file when the image has exactly
    72 bytes and comes back short otherwise. *)
Theorem cut_v3_header_exits (image : bytes) :
  72 <= Z.of_nat (length image) < 104 -> sub image 0 4 = Qcow2Magic ->
  version_of image = 3 ->
  run inspect image
  = Exit (if Z.of_nat (length image) =? 72 then ErrRead EOF else ErrShortRead).
Proof.
  intros Hlen Hmagic Hv.
  unfold run, inspect. apply bind_exit.
  apply decodeHeader_v3_cut; assumption.
Qed.

Lemma cut_v3_header_exits_witness :
  run inspect header_v3_cut = Exit ErrShortRead.
Proof.
  apply (cut_v3_header_exits header_v3_cut).
  - split; vm_compute; [discriminate | reflexivity].
  - reflexivity.
  - reflexivity.
Defined.

(** X3: when the file ends before the HeaderLength bytes after the fixed
    fields, the run yields no header: it ends with the error of [Read]
    (end of file) when no byte follows the fixed fields and with the
    short-read diagnostic otherwise. A bare version 2 header of 72 bytes
    is such an image. *)
Theorem short_extension_area_exits
        (image : bytes) (q : Header.t) (st : state) :
  run decodeHeader image = Ret (q, st) ->
  Z.of_nat (length image) < fixed_size q + Header.HeaderLength q ->
  run inspect image
  = Exit (if Z.of_nat (length image) =? fixed_size q
          then ErrRead EOF else ErrShortRead).
Proof.
  intros Hrun Hlen.
  destruct (decodeHeader_position image q st Hrun) as (Hc & Ho & Hfix & Hn).
  rewrite (inspect_after_header image q st Hrun).
  apply bind_exit. unfold readExtArea.
  rewrite (bind_eq _ _ _ _ _ (make_eq _ _)).
  set (n := Header.HeaderLength q) in *.
  apply bind_exit.
  change (read_full (mkSlice 0 n n) n)
    with (read_full (mkSlice 0 n n) (len (mkSlice 0 n n))).
  destruct (Z.eqb_spec (Z.of_nat (length image)) (fixed_size q)) as [E | E].
  - apply read_full_eof; unfold left_in; cbn [fh len]; rewrite ?Hc, ?Ho; lia.
  - apply read_full_short; unfold left_in; cbn [fh len]; rewrite ?Hc, ?Ho; lia.
Qed.

Lemma short_extension_area_exits_witness :
  run inspect header_v2 = Exit (ErrRead EOF).
Proof.
  apply (short_extension_area_exits header_v2
           (fixed_fields header_v2) (after_v2 header_v2)).
  - vm_compute. reflexivity.
  - vm_compute. reflexivity.
Defined.

(** ** The fields of the header *)

(** X4: for an image of 72 bytes or more with the magic and a version
    other than 3, each of the twelve v2 fields of the returned header is
    the big-endian integer at its offset of the layout, the 64-bit ones
    read as two's complement; the header has no extension yet and the file
    is at offset 72. *)
Theorem v2_fields_at_their_offsets (image : bytes) :
  72 <= Z.of_nat (length image) -> sub image 0 4 = Qcow2Magic ->
  version_of image <> 3 ->
  exists q st,
    run decodeHeader image = Ret (q, st)
    /\ Header.Version q = big_endian (sub image 4 8)
    /\ Header.BackingFileOffset q = int64_of_uint64 (big_endian (sub image 8 16))
    /\ Header.BackingFileSize q = big_endian (sub image 16 20)
    /\ Header.ClusterBits q = big_endian (sub image 20 24)
    /\ Header.Size q = int64_of_uint64 (big_endian (sub image 24 32))
    /\ Header.CryptMethod q = big_endian (sub image 32 36)
    /\ Header.L1Size q = big_endian (sub image 36 40)
    /\ Header.L1TableOffset q = int64_of_uint64 (big_endian (sub image 40 48))
    /\ Header.RefcountTableOffset q
       = int64_of_uint64 (big_endian (sub image 48 56))
    /\ Header.RefcountTableClusters q = big_endian (sub image 56 60)
    /\ Header.NbSnapshots q = big_endian (sub image 60 64)
    /\ Header.SnapshotsOffset q = int64_of_uint64 (big_endian (sub image 64 72))
    /\ Header.ExtHeaders q = []
    /\ offset (fh st) = 72.
Proof.
  intros Hlen Hmagic Hv.
  exists (fixed_fields image), (after_v2 image). split.
  - apply decodeHeader_plain; assumption.
  - cbn [fixed_fields Header.Version Header.BackingFileOffset
         Header.BackingFileSize Header.ClusterBits Header.Size
         Header.CryptMethod Header.L1Size Header.L1TableOffset
         Header.RefcountTableOffset Header.RefcountTableClusters
         Header.NbSnapshots Header.SnapshotsOffset Header.ExtHeaders
         after_v2 fh offset].
    repeat split.
Qed.

Lemma v2_fields_at_their_offsets_witness :
  exists q st,
    run decodeHeader header_v2_aes = Ret (q, st)
    /\ Header.Version q = big_endian (sub header_v2_aes 4 8)
    /\ Header.BackingFileOffset q
       = int64_of_uint64 (big_endian (sub header_v2_aes 8 16))
    /\ Header.BackingFileSize q = big_endian (sub header_v2_aes 16 20)
    /\ Header.ClusterBits q = big_endian (sub header_v2_aes 20 24)
    /\ Header.Size q = int64_of_uint64 (big_endian (sub header_v2_aes 24 32))
    /\ Header.CryptMethod q = big_endian (sub header_v2_aes 32 36)
    /\ Header.L1Size q = big_endian (sub header_v2_aes 36 40)
    /\ Header.L1TableOffset q
       = int64_of_uint64 (big_endian (sub header_v2_aes 40 48))
    /\ Header.RefcountTableOffset q
       = int64_of_uint64 (big_endian (sub header_v2_aes 48 56))
    /\ Header.RefcountTableClusters q = big_endian (sub header_v2_aes 56 60)
    /\ Header.NbSnapshots q = big_endian (sub header_v2_aes 60 64)
    /\ Header.SnapshotsOffset q
       = int64_of_uint64 (big_endian (sub header_v2_aes 64 72))
    /\ Header.ExtHeaders q = []
    /\ offset (fh st) = 72.
Proof.
  apply (v2_fields_at_their_offsets header_v2_aes).
  - vm_compute. discriminate.
  - reflexivity.
  - vm_compute. discriminate.
Defined.

(** X5: for an image of 104 bytes or more with the magic and version 3,
    the v2 fields are decoded as for version 2, RefcountOrder is the
    32-bit integer at bytes 96 to 100, HeaderLength the one at bytes 100
    to 104, a value below 2^32, and each of the three feature fields is
    the 32-bit integer at the first four bytes of its 8-byte field; the
    file is at offset 104. *)
Theorem v3_fields_as_read (image : bytes) :
  104 <= Z.of_nat (length image) -> sub image 0 4 = Qcow2Magic ->
  version_of image = 3 ->
  exists q st,
    run decodeHeader image = Ret (q, st)
    /\ Header.set_v3 q 0 0 0 0 72 = fixed_fields image
    /\ Header.IncompatibleFeatures q = big_endian (sub image 72 76)
    /\ Header.CompatibleFeatures q = big_endian (sub image 80 84)
    /\ Header.AutoclearFeatures q = big_endian (sub image 88 92)
    /\ Header.RefcountOrder q = big_endian (sub image 96 100)
    /\ Header.HeaderLength q = big_endian (sub image 100 104)
    /\ 0 <= Header.HeaderLength q < 2 ^ 32
    /\ offset (fh st) = 104.
Proof.
  intros Hlen Hmagic Hv.
  exists (v3_fields image), (after_v3 image). split.
  - apply decodeHeader_v3; assumption.
  - cbn [v3_fields Header.set_v3 fixed_fields Header.Version
         Header.BackingFileOffset Header.BackingFileSize Header.ClusterBits
         Header.Size Header.CryptMethod Header.L1Size Header.L1TableOffset
         Header.RefcountTableOffset Header.RefcountTableClusters
         Header.NbSnapshots Header.SnapshotsOffset Header.ExtHeaders
         Header.IncompatibleFeatures Header.CompatibleFeatures
         Header.AutoclearFeatures Header.RefcountOrder Header.HeaderLength
         after_v3 fh offset].
    repeat split; apply big_endian_sub4_range.
Qed.

Lemma v3_fields_as_read_witness :
  exists q st,
    run decodeHeader header_v3_dirty = Ret (q, st)
    /\ Header.set_v3 q 0 0 0 0 72 = fixed_fields header_v3_dirty
    /\ Header.IncompatibleFeatures q = big_endian (sub header_v3_dirty 72 76)
    /\ Header.CompatibleFeatures q = big_endian (sub header_v3_dirty 80 84)
    /\ Header.AutoclearFeatures q = big_endian (sub header_v3_dirty 88 92)
    /\ Header.RefcountOrder q = big_endian (sub header_v3_dirty 96 100)
    /\ Header.HeaderLength q = big_endian (sub header_v3_dirty 100 104)
    /\ 0 <= Header.HeaderLength q < 2 ^ 32
    /\ offset (fh st) = 104.
Proof.
  apply (v3_fields_as_read header_v3_dirty).
  - vm_compute. discriminate.
  - reflexivity.
  - reflexivity.
Defined.

Lemma big_endian_4_is_1 (bs : bytes) :
  length bs = 4%nat -> (big_endian bs = 1 <-> bs = [x00; x00; x00; x01]).
Proof.
  intros Hlen.
  destruct bs as [|b0 [|b1 [|b2 [|b3 [|b4 l]]]]]; try discriminate Hlen.
  split.
  - intros H.
    pose proof (u8_range b0). pose proof (u8_range b1).
    pose proof (u8_range b2). pose proof (u8_range b3).
    unfold big_endian in H; simpl fold_left in H.
    assert (u8 b0 = u8 x00) by (change (u8 x00) with 0; lia).
    assert (u8 b1 = u8 x00) by (change (u8 x00) with 0; lia).
    assert (u8 b2 = u8 x00) by (change (u8 x00) with 0; lia).
    assert (u8 b3 = u8 x01) by (change (u8 x01) with 1; lia).
    repeat match goal with H : u8 _ = u8 _ |- _ => apply u8_inj in H end.
    subst. reflexivity.
  - intros ->. reflexivity.
Qed.

(** X6: [String] of the crypt method of a decoded header is AES exactly
    when the four bytes at offset 32 are 00 00 00 01; for every other
    content of the field, the values the format does not define
    included, it is none. *)
Theorem crypt_method_name (image : bytes) (q : Header.t) (st : state) :
  run decodeHeader image = Ret (q, st) ->
  (CryptMethod_String (Header.CryptMethod q) = [x41; x45; x53]
   <-> sub image 32 36 = [x00; x00; x00; x01])
  /\ (sub image 32 36 <> [x00; x00; x00; x01] ->
      CryptMethod_String (Header.CryptMethod q) = [x6e; x6f; x6e; x65]).
Proof.
  intros Hrun.
  assert (Hlen : 72 <= Z.of_nat (length image))
    by (destruct (decodeHeader_position image q st Hrun) as (_ & _ & H & _); lia).
  assert (Hq : Header.CryptMethod q = big_endian (sub image 32 36)).
  { apply decodeHeader_result in Hrun.
    destruct Hrun as (_ & [(_ & _ & -> & _) | (_ & _ & -> & _)]); reflexivity. }
  assert (H4 : length (sub image 32 36) = 4%nat).
  { apply Nat2Z.inj. rewrite sub_length by lia. reflexivity. }
  pose proof (big_endian_4_is_1 (sub image 32 36) H4) as Hone.
  rewrite Hq. unfold CryptMethod_String.
  destruct (Z.eqb_spec (big_endian (sub image 32 36)) 1) as [E | E].
  - split; [tauto|]. intros Hne. exfalso. apply Hne, Hone, E.
  - split; [|reflexivity].
    split; [discriminate|]. intros Hb. exfalso. apply E, Hone, Hb.
Qed.

Lemma crypt_method_name_witness :
  (CryptMethod_String (Header.CryptMethod (fixed_fields header_v2_aes))
   = [x41; x45; x53]
   <-> sub header_v2_aes 32 36 = [x00; x00; x00; x01])
  /\ (sub header_v2_aes 32 36 <> [x00; x00; x00; x01] ->
      CryptMethod_String (Header.CryptMethod (fixed_fields header_v2_aes))
      = [x6e; x6f; x6e; x65]).
Proof.
  apply (crypt_method_name header_v2_aes (fixed_fields header_v2_aes)
           (after_v2 header_v2_aes)).
  vm_compute. reflexivity.
Defined.

(** ** [be32] and [be64] *)

Lemma fold_big_endian_bound (bs : bytes) :
  forall acc, 0 <= acc ->
    0 <= fold_left (fun a b => a * 256 + u8 b) bs acc
      < (acc + 1) * 256 ^ Z.of_nat (length bs).
Proof.
  induction bs as [|b bs IH]; intros acc Hacc.
  - simpl. lia.
  - pose proof (u8_range b) as Hb.
    cbn [fold_left length]. rewrite Nat2Z.inj_succ, Z.pow_succ_r by lia.
    specialize (IH (acc * 256 + u8 b) ltac:(lia)).
    assert (0 < 256 ^ Z.of_nat (length bs)) by (apply Z.pow_pos_nonneg; lia).
    nia.
Qed.

Lemma big_endian_bound (bs : bytes) :
  0 <= big_endian bs < 256 ^ Z.of_nat (length bs).
Proof.
  pose proof (fold_big_endian_bound bs 0 ltac:(lia)) as H.
  unfold big_endian. lia.
Qed.

(** X7: on a slice of four bytes or more that lies in its array, [be32]
    returns the big-endian integer of the first four bytes of the slice,
    a value from 0 to 2^32 - 1, whatever the bytes after them are, and
    leaves the state as it is. *)
Theorem be32_reads_first_four (s : slice) (st : state) :
  0 <= off s -> 4 <= len s ->
  off s + len s <= Z.of_nat (length (mem st)) ->
  be32 s st = Ret (big_endian (sub (load (mem st) s) 0 4), st)
  /\ 0 <= big_endian (sub (load (mem st) s) 0 4) < 2 ^ 32.
Proof.
  intros H0 H4 Hin. split.
  - rewrite be32_at by lia.
    rewrite <- (sub_load (mem st) s 0 4) by lia.
    replace (off s + 0) with (off s) by lia. reflexivity.
  - apply (big_endian_sub4_range _ 0).
Qed.

Lemma be32_reads_first_four_witness :
  be32 slice_8 st_sample
  = Ret (big_endian (sub (load (mem st_sample) slice_8) 0 4), st_sample)
  /\ 0 <= big_endian (sub (load (mem st_sample) slice_8) 0 4) < 2 ^ 32.
Proof.
  apply (be32_reads_first_four slice_8 st_sample).
  - vm_compute. discriminate.
  - vm_compute. discriminate.
  - vm_compute. discriminate.
Defined.

(** X8: [be32] on a slice of fewer than four bytes and [be64] on a slice
    of fewer than eight bytes panic with an index out of range: the
    bounds check of [b[3]], of [b[7]], comes before any byte is read. *)
Theorem short_slices_panic (s : slice) (st : state) :
  (len s < 4 -> be32 s st = Panic IndexRange)
  /\ (len s < 8 -> be64 s st = Panic IndexRange).
Proof.
  split; intros H.
  - apply be32_short. exact H.
  - unfold be64, Uint64. apply bind_panic, bind_panic. unfold index.
    replace (7 <? len s) with false by (symmetry; apply Z.ltb_ge; lia).
    reflexivity.
Qed.

Lemma short_slices_panic_witness :
  be32 slice_3 st_sample = Panic IndexRange
  /\ be64 slice_4 st_sample = Panic IndexRange.
Proof.
  destruct (short_slices_panic slice_3 st_sample) as [H32 _].
  destruct (short_slices_panic slice_4 st_sample) as [_ H64].
  split.
  - apply H32. vm_compute. reflexivity.
  - apply H64. vm_compute. reflexivity.
Defined.

(** X9: on a slice of eight bytes or more that lies in its array, [be64]
    returns the 64 bits of its first eight bytes read as two's
    complement: a value from -2^63 to 2^63 - 1 that is congruent to their
    big-endian integer modulo 2^64, and negative exactly when that
    integer is 2^63 or more. *)
Theorem be64_is_twos_complement (s : slice) (st : state) :
  0 <= off s -> 8 <= len s ->
  off s + len s <= Z.of_nat (length (mem st)) ->
  exists v,
    be64 s st = Ret (v, st)
    /\ - 2 ^ 63 <= v < 2 ^ 63
    /\ v mod 2 ^ 64 = big_endian (sub (load (mem st) s) 0 8)
    /\ (v < 0 <-> 2 ^ 63 <= big_endian (sub (load (mem st) s) 0 8)).
Proof.
  intros H0 H8 Hin.
  set (u := big_endian (sub (load (mem st) s) 0 8)).
  assert (Hu : 0 <= u < 2 ^ 64).
  { pose proof (big_endian_bound (sub (load (mem st) s) 0 8)) as Hb.
    assert (Hl : Z.of_nat (length (sub (load (mem st) s) 0 8)) = 8).
    { rewrite sub_length; rewrite ?load_sub, ?sub_length; lia. }
    rewrite Hl in Hb. exact Hb. }
  exists (int64_of_uint64 u). split; [|split; [|split]].
  - rewrite be64_at by lia. unfold u.
    rewrite <- (sub_load (mem st) s 0 8) by lia.
    replace (off s + 0) with (off s) by lia. reflexivity.
  - unfold int64_of_uint64. destruct (Z.ltb_spec u (2 ^ 63)); lia.
  - unfold int64_of_uint64. destruct (Z.ltb_spec u (2 ^ 63)).
    + apply Z.mod_small. lia.
    + symmetry. apply (Z.mod_unique _ _ (-1)); lia.
  - unfold int64_of_uint64. destruct (Z.ltb_spec u (2 ^ 63)); lia.
Qed.

Lemma be64_is_twos_complement_witness :
  exists v,
    be64 slice_ones st_ones = Ret (v, st_ones)
    /\ - 2 ^ 63 <= v < 2 ^ 63
    /\ v mod 2 ^ 64 = big_endian (sub (load (mem st_ones) slice_ones) 0 8)
    /\ (v < 0 <-> 2 ^ 63 <= big_endian (sub (load (mem st_ones) slice_ones) 0 8)).
Proof.
  apply (be64_is_twos_complement slice_ones st_ones).
  - vm_compute. discriminate.
  - vm_compute. discriminate.
  - vm_compute. discriminate.
Defined.

(** ** More on the walk *)

Lemma mod_4_of_mod_8 (s : Z) :
  s mod 4 = 0 <-> s mod 8 = 0 \/ s mod 8 = 4.
Proof.
  pose proof (Z.mod_pos_bound s 8 ltac:(lia)).
  pose proof (Z.mod_pos_bound s 4 ltac:(lia)).
  pose proof (Z.div_mod s 8 ltac:(lia)).
  pose proof (Z.div_mod s 4 ltac:(lia)).
  lia.
Qed.

Lemma stride_is_aligned_iff (s : Z) :
  0 <= s -> (stride s = aligned_stride s <-> s mod 4 = 0).
Proof.
  intros Hs. unfold stride, aligned_stride.
  rewrite Z.rem_mod_nonneg by lia. rewrite mod_4_of_mod_8.
  pose proof (Z.mod_pos_bound s 8 ltac:(lia)).
  destruct (Z.eqb_spec (s mod 8) 0); lia.
Qed.

(** X10: after a record the walker is at the next 8-byte boundary, as
    the format lays records out, exactly when the size of the record is a
    multiple of 4; for every other size it is past the boundary or short
    of it. *)
Theorem cursor_on_boundary_iff
        (st st' : state) (buf buf' : slice) (e : ExtHeader.t) :
  wf_buf st buf ->
  walk_turn buf st = Ret (Continue e buf', st') ->
  (off buf' - off buf = aligned_stride (ExtHeader.Size e)
   <-> ExtHeader.Size e mod 4 = 0).
Proof.
  intros Hwf Hrun.
  destruct (walk_turn_stride st st' buf buf' e Hwf Hrun) as (Hs & Ho).
  pose proof (size_at_range st buf) as Hr.
  rewrite <- (stride_is_aligned_iff (ExtHeader.Size e)) by lia.
  unfold stride. rewrite Ho. split; intros H; lia.
Qed.

Lemma cursor_on_boundary_iff_witness :
  exists e buf',
    walk_turn buf_v2 (walk_start image_size_5)
    = Ret (Continue e buf', walk_start image_size_5)
    /\ (off buf' - off buf_v2 = aligned_stride (ExtHeader.Size e)
        <-> ExtHeader.Size e mod 4 = 0).
Proof.
  eexists. eexists. split; [vm_compute; reflexivity|].
  apply (cursor_on_boundary_iff (walk_start image_size_5)
           (walk_start image_size_5) buf_v2).
  - wf_by_eval.
  - vm_compute. reflexivity.
Defined.

(** X11: a record whose payload fits in the buffer but whose stride does
    not ends the walk in a panic of the slice expression [buf[n:]], and the
    entries read before it are lost: a last record of size 5 padded to 16
    bytes, as the format asks, is such a record. *)
Theorem record_without_room_panics
        (st : state) (buf : slice) (recs : list record) (last : bytes) :
  wf_buf st buf -> Forall well_laid recs ->
  load (mem st) buf = flat_map layout recs ++ last ->
  8 <= Z.of_nat (length last) -> tag_of last <> HdrExtEndOfArea ->
  size_of last <= Z.of_nat (length last) - 8 ->
  Z.of_nat (length last) < stride (size_of last) ->
  walkExtensions buf st = Panic SliceBounds.
Proof.
  intros Hwf Hrecs Hload H8 Htag Hfit Hroom.
  destruct (walkExtensions_records st buf recs last Hwf Hrecs Hload)
    as (es & buf' & fuel & E & _ & Hwf' & Hrest).
  pose proof (load_length st buf' Hwf') as Hlen. rewrite Hrest in Hlen.
  rewrite E. simpl walk_loop. apply bind_panic.
  apply walk_turn_padding_cut; rewrite ?tag_at_of, ?size_at_of, ?Hrest;
    (assumption || lia).
Qed.

Lemma record_without_room_panics_witness :
  walkExtensions buf_v2 (walk_start image_no_room) = Panic SliceBounds.
Proof.
  apply (record_without_room_panics (walk_start image_no_room) buf_v2
           seven_records last_record).
  - wf_by_eval.
  - laid_by_eval.
  - by_eval.
  - by_eval.
  - by_eval.
  - by_eval.
  - by_eval.
Defined.

Lemma strides_of_records (st : state) (recs : list record)
      (es : list ExtHeader.t) :
  Forall well_laid recs -> Forall2 (shows st) recs es ->
  Z.of_nat (length (flat_map layout recs)) = strides es
  /\ length recs = length es.
Proof.
  intros Hrecs Hall. induction Hall as [|r e rs es' Hre _ IH].
  - split; reflexivity.
  - inversion Hrecs as [|? ? Hr Hrs]; subst.
    destruct (IH Hrs) as (IH1 & IH2).
    destruct Hr as (_ & _ & _ & _ & Hl). destruct Hre as (_ & Hsz & _).
    cbn [flat_map strides fold_right length]. fold (strides es').
    rewrite length_app, Nat2Z.inj_add, Hl, Hsz, IH1, IH2.
    split; reflexivity.
Qed.

Lemma strides_lower (es : list ExtHeader.t) :
  Forall (fun e => 0 <= ExtHeader.Size e) es ->
  8 * Z.of_nat (length es) <= strides es.
Proof.
  induction 1 as [|e es' He _ IH]; [simpl; lia|].
  cbn [strides fold_right length]. fold (strides es').
  pose proof (stride_bounds (ExtHeader.Size e) He). lia.
Qed.

(** X12: the entries of a walk that succeeds fit in the buffer: their
    strides and the four bytes of the end-of-area tag add up to no more
    than its length, so a buffer of n bytes yields at most (n - 4) / 8
    entries. *)
Theorem entries_fit_the_buffer
        (st st' : state) (buf : slice) (exts : list ExtHeader.t) :
  wf_buf st buf ->
  walkExtensions buf st = Ret (exts, st') ->
  strides exts + 4 <= len buf
  /\ 8 * Z.of_nat (length exts) + 4 <= len buf.
Proof.
  intros Hwf Hrun.
  destruct (walk_loop_complete _ st st' buf [] exts Hwf Hrun)
    as (recs & tail & es & Hout & Hrecs & Hload & Htail & _ & Hall).
  simpl in Hout. subst es.
  destruct (strides_of_records st recs exts Hrecs Hall) as (Hsum & _).
  pose proof (load_length st buf Hwf) as Hlen.
  rewrite Hload, length_app, Nat2Z.inj_add, Hsum in Hlen.
  assert (Hpos : Forall (fun e => 0 <= ExtHeader.Size e) exts).
  { clear - Hall. induction Hall as [|r e rs es' Hre _ IH]; constructor.
    - destruct Hre as (_ & -> & _).
      pose proof (big_endian_bound (r_size r)). lia.
    - exact IH. }
  pose proof (strides_lower exts Hpos). lia.
Qed.

Lemma entries_fit_the_buffer_witness :
  exists exts,
    walkExtensions buf_v2 (walk_start image_two_records)
    = Ret (exts, walk_start image_two_records)
    /\ strides exts + 4 <= len buf_v2
    /\ 8 * Z.of_nat (length exts) + 4 <= len buf_v2.
Proof.
  eexists. split; [vm_compute; reflexivity|].
  apply (entries_fit_the_buffer (walk_start image_two_records)
           (walk_start image_two_records) buf_v2).
  - wf_by_eval.
  - vm_compute. reflexivity.
Defined.

(** *** The views the entries keep *)

Lemma walk_loop_laid (fuel : nat) :
  forall (st st' : state) (buf : slice) (exts out : list ExtHeader.t),
    wf_buf st buf ->
    walk_loop fuel buf exts st = Ret (out, st') ->
    exists es,
      out = exts ++ es
      /\ laid_from (off buf) es
      /\ Forall (fun e => off (ExtHeader.Data e) + cap (ExtHeader.Data e)
                          = off buf + cap buf
                          /\ len (ExtHeader.Data e) <= cap (ExtHeader.Data e))
           es.
Proof.
  induction fuel as [|fuel IH]; intros st st' buf exts out Hwf Hrun;
    [discriminate Hrun|].
  simpl walk_loop in Hrun.
  destruct (walk_turn_cases st buf Hwf)
    as [E | [(H4 & Ht & E) | (H8 & Ht & Hs & E)]].
  - rewrite (bind_panic _ _ _ _ E) in Hrun. discriminate Hrun.
  - rewrite (bind_eq _ _ _ _ _ E) in Hrun. inversion Hrun; subst.
    exists []. rewrite app_nil_r. repeat split; constructor.
  - rewrite (bind_eq _ _ _ _ _ E) in Hrun.
    pose proof (size_at_range st buf) as Hr.
    pose proof (stride_bounds (size_at st buf) ltac:(lia)) as Hb.
    assert (Hwf' : wf_buf st (advance buf (stride (size_at st buf))))
      by (apply wf_buf_advance; [assumption | lia]).
    destruct (IH st st' _ _ out Hwf' Hrun) as (es & Hout & Hlaid & Hcap).
    exists (ExtHeader.mk (tag_at st buf) (size_at st buf)
              (mkSlice (off buf + 8) (size_at st buf) (cap buf - 8)) :: es).
    split; [|split].
    + rewrite Hout, <- app_assoc. reflexivity.
    + cbn [laid_from ExtHeader.Data ExtHeader.Size off len].
      repeat split; try lia. exact Hlaid.
    + destruct Hwf as (H0 & H1 & H2 & H3). constructor.
      * cbn [ExtHeader.Data off cap len]. lia.
      * revert Hcap. apply Forall_impl. intros e (He & Hle).
        split; [|exact Hle].
        rewrite He. unfold advance; cbn [off cap]. lia.
Qed.

Lemma laid_from_lower (es : list ExtHeader.t) :
  forall pos, laid_from pos es ->
    Forall (fun e => pos + 8 <= off (ExtHeader.Data e)) es.
Proof.
  induction es as [|e es IH]; intros pos H; constructor.
  - destruct H as (H & _). lia.
  - destruct H as (_ & _ & Hs & H).
    pose proof (stride_bounds (ExtHeader.Size e) Hs).
    apply IH in H. revert H. apply Forall_impl. intros e' He'. lia.
Qed.

Lemma laid_from_ordered (es : list ExtHeader.t) :
  forall pos, laid_from pos es -> ForallOrdPairs lies_before es.
Proof.
  induction es as [|e es IH]; intros pos H; constructor.
  - destruct H as (Ho & _ & Hs & H).
    pose proof (stride_bounds (ExtHeader.Size e) Hs).
    apply laid_from_lower in H. revert H. apply Forall_impl.
    intros e' He'. unfold lies_before. lia.
  - destruct H as (_ & _ & _ & H). exact (IH _ H).
Qed.

(** X13: the [Data] of every entry is the two-index slice of [buf] it was
    taken as: its length is the Size of the entry and its capacity runs to
    the end of the buffer, over all the records after it (what the note
    on [copy] in the source is about). *)
Theorem data_capacity_reaches_the_end
        (st st' : state) (buf : slice) (exts : list ExtHeader.t) :
  wf_buf st buf ->
  walkExtensions buf st = Ret (exts, st') ->
  Forall (fun e =>
            len (ExtHeader.Data e) = ExtHeader.Size e
            /\ off (ExtHeader.Data e) + cap (ExtHeader.Data e)
               = off buf + cap buf
            /\ len (ExtHeader.Data e) <= cap (ExtHeader.Data e)) exts.
Proof.
  intros Hwf Hrun.
  destruct (walk_loop_laid _ st st' buf [] exts Hwf Hrun)
    as (es & Hout & _ & Hcap).
  simpl in Hout. subst es.
  pose proof (walk_loop_read_from _ st st' (off buf) buf [] exts Hwf
                (Z.le_refl _) (Forall_nil _) (Forall_nil _) Hrun) as (Hread & _).
  rewrite Forall_forall in *. intros e He.
  destruct (Hcap e He) as (Hc & Hle). destruct (Hread e He) as (pos & Hp).
  destruct Hp as (_ & _ & _ & _ & _ & Hlen & _).
  repeat split; assumption.
Qed.

Lemma data_capacity_reaches_the_end_witness :
  exists exts,
    walkExtensions buf_v2 (walk_start image_two_records)
    = Ret (exts, walk_start image_two_records)
    /\ Forall (fun e =>
                 len (ExtHeader.Data e) = ExtHeader.Size e
                 /\ off (ExtHeader.Data e) + cap (ExtHeader.Data e)
                    = off buf_v2 + cap buf_v2
                 /\ len (ExtHeader.Data e) <= cap (ExtHeader.Data e)) exts.
Proof.
  eexists. split; [vm_compute; reflexivity|].
  apply (data_capacity_reaches_the_end (walk_start image_two_records)
           (walk_start image_two_records) buf_v2).
  - wf_by_eval.
  - vm_compute. reflexivity.
Defined.

(** X14: the entries of a walk that succeeds lie in the buffer in the
    order of the list and their payloads do not overlap: the payload of an
    entry ends at least 8 bytes, a record header, before the payload of
    any later entry begins. *)
Theorem payloads_in_order_and_apart
        (st st' : state) (buf : slice) (exts : list ExtHeader.t) :
  wf_buf st buf ->
  walkExtensions buf st = Ret (exts, st') ->
  ForallOrdPairs lies_before exts.
Proof.
  intros Hwf Hrun.
  destruct (walk_loop_laid _ st st' buf [] exts Hwf Hrun)
    as (es & Hout & Hlaid & _).
  simpl in Hout. subst es.
  exact (laid_from_ordered exts (off buf) Hlaid).
Qed.

Lemma payloads_in_order_and_apart_witness :
  exists exts,
    walkExtensions buf_v2 (walk_start image_two_records)
    = Ret (exts, walk_start image_two_records)
    /\ ForallOrdPairs lies_before exts.
Proof.
  eexists. split; [vm_compute; reflexivity|].
  apply (payloads_in_order_and_apart (walk_start image_two_records)
           (walk_start image_two_records) buf_v2).
  - wf_by_eval.
  - vm_compute. reflexivity.
Defined.

(** ** Whole runs *)


Lemma inspect_reaches_walk (image : bytes) (q : Header.t) (st : state) :
  run decodeHeader image = Ret (q, st) ->
  fixed_size q + Header.HeaderLength q <= Z.of_nat (length image) ->
  run inspect image
  = (exts <- walkExtensions
               (mkSlice 0 (Header.HeaderLength q) (Header.HeaderLength q)) ;;
     ret (Header.set_ExtHeaders q exts))
      (after_ext image (fixed_size q) (Header.HeaderLength q))
  /\ wf_buf (after_ext image (fixed_size q) (Header.HeaderLength q))
       (mkSlice 0 (Header.HeaderLength q) (Header.HeaderLength q)).
Proof.
  intros Hrun Hroom.
  destruct (decodeHeader_position image q st Hrun) as (Hc & Ho & Hfix & Hn).
  split; [|apply wf_buf_ext; lia].
  rewrite (inspect_after_header image q st Hrun).
  assert (Hread : readExtArea q st
                  = Ret (mkSlice 0 (Header.HeaderLength q) (Header.HeaderLength q),
                         after_ext image (fixed_size q) (Header.HeaderLength q))).
  { replace (after_ext image (fixed_size q) (Header.HeaderLength q))
      with (after_ext (contents (fh st)) (offset (fh st)) (Header.HeaderLength q))
      by (rewrite Hc, Ho; reflexivity).
    apply readExtArea_ok; unfold left_in; rewrite ?Hc, ?Ho; lia. }
  rewrite (bind_eq _ _ _ _ _ Hread). reflexivity.
Qed.



(** X16: a header length below 4, which only a version 3 header can
    carry, leaves no room for a type tag: when the file has that many
    bytes after the fixed fields the run ends in the panic of [buf[:4]]. *)
Theorem tiny_header_length_panics
        (image : bytes) (q : Header.t) (st : state) :
  run decodeHeader image = Ret (q, st) ->
  Header.HeaderLength q < 4 ->
  fixed_size q + Header.HeaderLength q <= Z.of_nat (length image) ->
  Header.Version q = 3 /\ run inspect image = Panic SliceBounds.
Proof.
  intros Hrun Htiny Hroom. split.
  - apply decodeHeader_result in Hrun.
    destruct Hrun as (_ & [(_ & _ & -> & _) | (Hv & _ & -> & _)]).
    + simpl in Htiny. lia.
    + exact Hv.
  - destruct (inspect_reaches_walk image q st Hrun Hroom) as (Einspect & Hwf).
    rewrite Einspect. apply bind_panic.
    unfold walkExtensions. simpl walk_loop. apply bind_panic.
    apply walk_turn_short4; [exact Hwf | exact Htiny].
Qed.

Lemma tiny_header_length_panics_witness :
  Header.Version (v3_fields header_v3_no_area) = 3
  /\ run inspect header_v3_no_area = Panic SliceBounds.
Proof.
  apply (tiny_header_length_panics header_v3_no_area
           (v3_fields header_v3_no_area) (after_v3 header_v3_no_area)).
  - vm_compute. reflexivity.
  - vm_compute. reflexivity.
  - vm_compute. discriminate.
Defined.

Lemma walk_loop_panics_on_bounds (fuel : nat) :
  forall (st : state) (buf : slice) (exts : list ExtHeader.t) p,
    wf_buf st buf ->
    walk_loop fuel buf exts st = Panic p -> p = SliceBounds.
Proof.
  induction fuel as [|fuel IH]; intros st buf exts p Hwf Hrun;
    [discriminate Hrun|].
  simpl walk_loop in Hrun.
  destruct (walk_turn_cases st buf Hwf)
    as [E | [(H4 & Ht & E) | (H8 & Ht & Hs & E)]].
  - rewrite (bind_panic _ _ _ _ E) in Hrun. inversion Hrun. reflexivity.
  - rewrite (bind_eq _ _ _ _ _ E) in Hrun. discriminate Hrun.
  - rewrite (bind_eq _ _ _ _ _ E) in Hrun.
    pose proof (size_at_range st buf) as Hr.
    pose proof (stride_bounds (size_at st buf) ltac:(lia)) as Hb.
    apply (IH st _ _ p) in Hrun; [exact Hrun|].
    apply wf_buf_advance; [assumption | lia].
Qed.

Lemma decodeHeader_outcome (image : bytes) :
  (exists q st, run decodeHeader image = Ret (q, st))
  \/ (exists e, run decodeHeader image = Exit e).
Proof.
  destruct (Z.lt_ge_cases (Z.of_nat (length image)) 72) as [Hs | Hlen].
  { right. eexists. apply decodeHeader_short. exact Hs. }
  destruct (magic_dec image) as [Hmagic | Hmagic].
  2: { right. eexists. apply decodeHeader_magic; assumption. }
  destruct (Z.eq_dec (version_of image) 3) as [Hv | Hv].
  - destruct (Z.lt_ge_cases (Z.of_nat (length image)) 104) as [Hc | H104].
    + right. eexists. apply decodeHeader_v3_cut; (assumption || lia).
    + left. eexists. eexists. apply decodeHeader_v3; assumption.
  - left. eexists. eexists. apply decodeHeader_plain; assumption.
Qed.

Lemma inspect_panic (image : bytes) (p : runtime_error) :
  run inspect image = Panic p ->
  p = SliceBounds /\ exists q st, run decodeHeader image = Ret (q, st).
Proof.
  intros Hrun.
  destruct (decodeHeader_outcome image) as [(q & st & E) | (e & E)].
  2: { unfold run, inspect in Hrun. rewrite (bind_exit _ _ _ _ E) in Hrun.
       discriminate Hrun. }
  split; [|exists q, st; exact E].
  rewrite (inspect_after_header image q st E) in Hrun.
  destruct (decodeHeader_position image q st E) as (Hc & Ho & Hfix & Hn).
  destruct (readExtArea_cases q st Hn ltac:(lia)
              ltac:(unfold left_in; rewrite Hc; lia))
    as [(Eread & Hle) | (e & Eread)].
  - rewrite (bind_eq _ _ _ _ _ Eread) in Hrun.
    assert (Hwf : wf_buf
              (after_ext (contents (fh st)) (offset (fh st)) (Header.HeaderLength q))
              (mkSlice 0 (Header.HeaderLength q) (Header.HeaderLength q))).
    { apply wf_buf_ext; unfold left_in in Hle; lia. }
    unfold bind in Hrun.
    destruct (walkExtensions _ _) as [[exts st'] | e | p' |] eqn:Ewalk;
      try discriminate Hrun.
    inversion Hrun; subst p'.
    exact (walk_loop_panics_on_bounds _ _ _ _ _ Hwf Ewalk).
  - rewrite (bind_exit _ _ _ _ Eread) in Hrun. discriminate Hrun.
Qed.

(** X17: the header is decoded without a panic, whatever the file holds:
    every slice expression and every field read up to line 70 stays in
    bounds. A run can end in a panic only in the walk of the extension
    area, after a header was decoded, and the panic is then a slice
    bounds failure, not an index out of range of [be32]. *)
Theorem panics_come_from_the_walk (image : bytes) (p : runtime_error) :
  run decodeHeader image <> Panic p
  /\ (run inspect image = Panic p ->
      p = SliceBounds /\ exists q st, run decodeHeader image = Ret (q, st)).
Proof.
  split.
  - destruct (decodeHeader_outcome image) as [(q & st & E) | (e & E)];
      rewrite E; discriminate.
  - apply inspect_panic.
Qed.

Lemma panics_come_from_the_walk_witness :
  run decodeHeader image_cut <> Panic SliceBounds
  /\ exists q st, run decodeHeader image_cut = Ret (q, st).
Proof.
  destruct (panics_come_from_the_walk image_cut SliceBounds) as (H1 & H2).
  split; [exact H1|].
  assert (E : run inspect image_cut = Panic SliceBounds)
    by (vm_compute; reflexivity).
  exact (proj2 (H2 E)).
Defined.

(** X19: every run ends, and in one of three ways: it returns a header,
    it exits after one of the diagnostics of the program, or it panics
    on a slice expression. The loop of the walk, which has no condition,
    cannot go on for ever: each turn that continues takes at least 8
    bytes off [buf]. *)
Theorem every_run_ends (image : bytes) :
  (exists q st, run inspect image = Ret (q, st))
  \/ (exists e, run inspect image = Exit e)
  \/ run inspect image = Panic SliceBounds.
Proof.
  destruct (run inspect image) as [[q st] | e | p |] eqn:Hrun.
  - left. exists q, st. reflexivity.
  - right; left. exists e. reflexivity.
  - right; right. destruct (inspect_panic image p Hrun) as (-> & _).
    reflexivity.
  - exfalso. exact (inspect_terminates image Hrun).
Qed.

(** X18: a run that returns a header has read the fixed fields and the
    HeaderLength bytes after them, and nothing more: the file is at
    offset 72 + HeaderLength, or 104 + HeaderLength for version 3, which is
    within the image, and the array of [buf] holds exactly the bytes of
    that region. The header returned is the decoded one with the entries
    of the walk. *)
Theorem run_stops_after_the_area
        (image : bytes) (q : Header.t) (st : state) :
  run inspect image = Ret (q, st) ->
  contents (fh st) = image
  /\ offset (fh st) = fixed_size q + Header.HeaderLength q
  /\ offset (fh st) <= Z.of_nat (length image)
  /\ mem st = sub image (fixed_size q) (fixed_size q + Header.HeaderLength q)
  /\ exists q0 st0,
       run decodeHeader image = Ret (q0, st0)
       /\ q = Header.set_ExtHeaders q0 (Header.ExtHeaders q).
Proof.
  intros Hrun.
  destruct (decodeHeader_outcome image) as [(q0 & st0 & E) | (e & E)].
  2: { unfold run, inspect in Hrun. rewrite (bind_exit _ _ _ _ E) in Hrun.
       discriminate Hrun. }
  rewrite (inspect_after_header image q0 st0 E) in Hrun.
  destruct (decodeHeader_position image q0 st0 E) as (Hc & Ho & Hfix & Hn).
  destruct (readExtArea_cases q0 st0 Hn ltac:(lia)
              ltac:(unfold left_in; rewrite Hc; lia))
    as [(Eread & Hle) | (e & Eread)].
  2: { rewrite (bind_exit _ _ _ _ Eread) in Hrun. discriminate Hrun. }
  rewrite (bind_eq _ _ _ _ _ Eread) in Hrun.
  unfold bind in Hrun.
  destruct (walkExtensions _ _) as [[exts st'] | e | p' |] eqn:Ewalk;
    try discriminate Hrun.
  apply read_only_walk_loop in Ewalk. subst st'.
  unfold ret in Hrun. inversion Hrun; subst q st. clear Hrun.
  unfold left_in in Hle. rewrite Hc, Ho in *.
  assert (Hfs : fixed_size (Header.set_ExtHeaders q0 exts) = fixed_size q0)
    by reflexivity.
  rewrite Hfs. cbn [Header.set_ExtHeaders Header.HeaderLength Header.ExtHeaders
                    after_ext fh mem contents offset].
  repeat split; try lia.
  exists q0, st0. split; [exact E|].
  destruct q0; reflexivity.
Qed.

Lemma run_stops_after_the_area_witness :
  exists q st,
    run inspect image_two_records = Ret (q, st)
    /\ contents (fh st) = image_two_records
    /\ offset (fh st) = fixed_size q + Header.HeaderLength q
    /\ offset (fh st) <= Z.of_nat (length image_two_records)
    /\ mem st = sub image_two_records (fixed_size q)
                  (fixed_size q + Header.HeaderLength q)
    /\ exists q0 st0,
         run decodeHeader image_two_records = Ret (q0, st0)
         /\ q = Header.set_ExtHeaders q0 (Header.ExtHeaders q).
Proof.
  eexists. eexists. split; [vm_compute; reflexivity|].
  apply (run_stops_after_the_area image_two_records).
  vm_compute. reflexivity.
Defined.
